(** * Grassfire path planning: a shallow embedding of [grassfire_algorithm]

    The development models the function [grassfire_algorithm] of
    [grassfirealgorigthm.py]: the wavefront (breadth-first) expansion that
    fills a NumPy array with step counts to the destination, and the
    downhill walk that reads a path off that array.

    Modelling choices, all read off the source:
    - the array holds float64 values; the only values the function ever
      stores are [np.inf], [np.nan] and integers obtained from [0] by
      repeated [+ 1], so an entry is [Inf], [NaN] or [Fin n] with [n : Z]
      (exact below 2^53, far above the cell count of any array that fits in
      memory), and comparisons follow IEEE-754: every comparison with
      [NaN] is false;
    - a cell is a pair of Python integers, so [Z * Z]; indexing follows
      NumPy: an index in [-n, 0) wraps around, anything else outside
      [0, n) raises [IndexError];
    - the two [while] loops take a fuel argument; running out of fuel is
      the outcome [OutOfFuel], kept apart from the Python exceptions. *)

From Stdlib Require Import ZArith Lia.
From stdpp Require Import base tactics option list numbers sets gmap.

Local Open Scope Z_scope.
#[local] Set Warnings "-clear-no-such-hyp".

(** ** Array entries *)

Inductive fval : Type :=
  | Fin (n : Z)
  | Inf
  | NaN.

#[global] Instance fval_eq_dec : EqDecision fval.
Proof. solve_decision. Defined.

(** [np.isinf] *)
Definition isinf (v : fval) : bool :=
  match v with Inf => true | _ => false end.

(** [v + 1] on floats *)
Definition fadd1 (v : fval) : fval :=
  match v with Fin n => Fin (n + 1) | Inf => Inf | NaN => NaN end.

(** [a >= b] on floats *)
Definition fge (a b : fval) : bool :=
  match a, b with
  | NaN, _ | _, NaN => false
  | Inf, _ => true
  | Fin _, Inf => false
  | Fin x, Fin y => y <=? x
  end.

(** [a < b] on floats *)
Definition flt (a b : fval) : bool :=
  match a, b with
  | NaN, _ | _, NaN => false
  | Inf, _ => false
  | Fin _, Inf => true
  | Fin x, Fin y => x <? y
  end.

(** [a == b] on floats *)
Definition feq (a b : fval) : bool :=
  match a, b with
  | NaN, _ | _, NaN => false
  | Inf, Inf => true
  | Fin x, Fin y => x =? y
  | _, _ => false
  end.

(** ** Outcomes of a run *)

Inductive exn : Type := IndexError | ValueError.

Inductive result (A : Type) : Type :=
  | Ok (a : A)
  | Raise (e : exn)
  | OutOfFuel.
Arguments Ok {A} a.
Arguments Raise {A} e.
Arguments OutOfFuel {A}.

#[global] Instance result_ret : MRet result := λ A a, Ok a.
#[global] Instance result_bind : MBind result := λ A B k m,
  match m with
  | Ok a => k a
  | Raise e => Raise e
  | OutOfFuel => OutOfFuel
  end.

Fixpoint foldM {A B : Type} (step : A → B → result A) (a : A) (l : list B)
  : result A :=
  match l with
  | [] => Ok a
  | b :: l' => a' ← step a b; foldM step a' l'
  end.

(** ** Cells and the array *)

Abbreviation cell := (Z * Z)%type.
Abbreviation field := (list (list fval)).

(** NumPy's treatment of one index against an axis of length [n]. *)
Definition norm_index (n : nat) (i : Z) : option nat :=
  if bool_decide (0 ≤ i < Z.of_nat n) then Some (Z.to_nat i)
  else if bool_decide (- Z.of_nat n ≤ i < 0) then Some (Z.to_nat (i + Z.of_nat n))
  else None.

(** [np.full((num_rows, num_cols), v)] *)
Definition np_full (num_rows num_cols : Z) (v : fval) : result field :=
  if bool_decide (num_rows < 0 ∨ num_cols < 0) then Raise ValueError
  else Ok (replicate (Z.to_nat num_rows) (replicate (Z.to_nat num_cols) v)).

(** [field[p]] *)
Definition getitem (f : field) (p : cell) : result fval :=
  match norm_index (length f) p.1 with
  | Some i =>
      match f !! i with
      | Some row =>
          match norm_index (length row) p.2 with
          | Some j =>
              match row !! j with
              | Some v => Ok v
              | None => Raise IndexError
              end
          | None => Raise IndexError
          end
      | None => Raise IndexError
      end
  | None => Raise IndexError
  end.

(** [field[p] = v] *)
Definition setitem (f : field) (p : cell) (v : fval) : result field :=
  match norm_index (length f) p.1 with
  | Some i =>
      match f !! i with
      | Some row =>
          match norm_index (length row) p.2 with
          | Some j => Ok (<[i := <[j := v]> row]> f)
          | None => Raise IndexError
          end
      | None => Raise IndexError
      end
  | None => Raise IndexError
  end.

(** [0 <= row < num_rows and 0 <= col < num_cols] *)
Definition in_grid (num_rows num_cols : Z) (p : cell) : bool :=
  bool_decide (0 ≤ p.1 < num_rows) && bool_decide (0 ≤ p.2 < num_cols).

(** [[(-1, 0), (1, 0), (0, -1), (0, 1)]]: up, down, left, right. *)
Definition directions : list (Z * Z) := [(-1, 0); (1, 0); (0, -1); (0, 1)].

Definition shift (p : cell) (d : Z * Z) : cell := (p.1 + d.1, p.2 + d.2).

(** ** The wavefront expansion (source lines 54-67) *)

(** The body of the inner [for] loop for one direction. *)
Definition visit (num_rows num_cols : Z) (h : cell)
    (st : field * list cell) (d : Z * Z) : result (field * list cell) :=
  let new := shift h d in
  if in_grid num_rows num_cols new then
    v ← getitem st.1 new;
    if isinf v then
      hv ← getitem st.1 h;
      f' ← setitem st.1 new (fadd1 hv);
      Ok (f', st.2 ++ [new])
    else Ok st
  else Ok st.

(** One pass of the [while] body after [queue.pop(0)] gave [h]. *)
Definition expand (num_rows num_cols : Z) (h : cell)
    (st : field * list cell) : result (field * list cell) :=
  foldM (visit num_rows num_cols h) st directions.

(** [while queue: ...] *)
Fixpoint bfs_loop (fuel : nat) (num_rows num_cols : Z)
    (f : field) (queue : list cell) : result field :=
  match fuel with
  | O => OutOfFuel
  | S fuel' =>
      match queue with
      | [] => Ok f
      | h :: queue' =>
          st ← expand num_rows num_cols h (f, queue');
          bfs_loop fuel' num_rows num_cols st.1 st.2
      end
  end.

(** Lines 54-57: the array before the expansion starts. *)
Definition init_field (obstacles : list cell) (destination_point : cell)
    (num_rows num_cols : Z) : result field :=
  f ← np_full num_rows num_cols Inf;
  f ← foldM (λ f obstacle, setitem f obstacle NaN) f obstacles;
  setitem f destination_point (Fin 0).

(** Lines 54-67. *)
Definition compute_field (fuel : nat) (obstacles : list cell)
    (destination_point : cell) (num_rows num_cols : Z) : result field :=
  f ← init_field obstacles destination_point num_rows num_cols;
  bfs_loop fuel num_rows num_cols f [destination_point].

(** ** The downhill walk (source lines 69-83) *)

(** The key [(field[pos], -pos[0], -pos[1])]. *)
Definition sort_key (f : field) (pos : cell) : result (fval * Z * Z) :=
  v ← getitem f pos; Ok (v, - pos.1, - pos.2).

(** Python's [<] on two such tuples: the first component on which [==]
    fails decides, by [<]. *)
Definition key_lt (a b : fval * Z * Z) : bool :=
  let '(v1, r1, c1) := a in
  let '(v2, r2, c2) := b in
  if feq v1 v2 then
    if bool_decide (r1 = r2) then
      if bool_decide (c1 = c2) then false else bool_decide (c1 < c2)
    else bool_decide (r1 < r2)
  else flt v1 v2.

(** The loop of the builtin [min]: the running best is replaced only by
    an item whose key is [<] the best key. *)
Fixpoint py_min_from (f : field) (best : cell) (best_key : fval * Z * Z)
    (rest : list cell) : result cell :=
  match rest with
  | [] => Ok best
  | x :: rest' =>
      k ← sort_key f x;
      if key_lt k best_key then py_min_from f x k rest'
      else py_min_from f best best_key rest'
  end.

Definition py_min (f : field) (items : list cell) : result cell :=
  match items with
  | [] => Raise ValueError
  | x :: rest => k ← sort_key f x; py_min_from f x k rest
  end.

(** The list comprehension of lines 76-77. *)
Definition candidates (num_rows num_cols : Z) (p : cell) : list cell :=
  filter (λ q, in_grid num_rows num_cols q = true) (map (shift p) directions).

(** Lines 74-80 for the current cell: [None] is the early
    [return [], field], [Some next] the cell the walk moves to. *)
Definition walk_step (f : field) (num_rows num_cols : Z) (current_pos : cell)
  : result (option cell) :=
  current_val ← getitem f current_pos;
  next ← py_min f (candidates num_rows num_cols current_pos);
  next_val ← getitem f next;
  if fge next_val current_val then Ok None else Ok (Some next).

(** [while current_pos != destination_point: ...]; the result is the
    list the function returns. *)
Fixpoint walk_loop (fuel : nat) (f : field) (num_rows num_cols : Z)
    (destination_point current_pos : cell) (path : list cell)
  : result (list cell) :=
  match fuel with
  | O => OutOfFuel
  | S fuel' =>
      if bool_decide (current_pos = destination_point)
      then Ok (rev (path ++ [destination_point]))
      else
        step ← walk_step f num_rows num_cols current_pos;
        match step with
        | None => Ok []
        | Some next =>
            walk_loop fuel' f num_rows num_cols destination_point next
              (path ++ [current_pos])
        end
  end.

(** Lines 69-83. *)
Definition reconstruct (fuel : nat) (f : field) (start_point destination_point : cell)
    (num_rows num_cols : Z) : result (list cell) :=
  v ← getitem f start_point;
  if negb (isinf v)
  then walk_loop fuel f num_rows num_cols destination_point start_point []
  else Ok (rev []).

Definition grassfire_algorithm (fuel : nat) (obstacles : list cell)
    (start_point destination_point : cell) (num_rows num_cols : Z)
  : result (list cell * field) :=
  f ← compute_field fuel obstacles destination_point num_rows num_cols;
  path ← reconstruct fuel f start_point destination_point num_rows num_cols;
  Ok (path, f).

(** * The callers of [grassfire_algorithm] *)

(** ** Random draws (lines 37, 42, 49) *)

(** The generator is the list of raw numbers it is going to deliver.
    [random.randint(a, b)] raises [ValueError] on an empty range and
    otherwise turns the next raw number into an integer between [a] and
    [b], both included; every such integer can come out.  A list that has
    run dry counts as fuel that has run out. *)
Definition randint (a b : Z) (rng : list Z) : result (Z * list Z) :=
  if bool_decide (b < a) then Raise ValueError
  else
    match rng with
    | [] => OutOfFuel
    | x :: rng' => Ok (a + x `mod` (b - a + 1), rng')
    end.

(** ** [prompt_grid_size] (lines 18-28) *)

Definition MIN_ROWS : Z := 8.
Definition MIN_COLUMNS : Z := 8.

(** What the function writes: the two questions of [input] and the two
    messages of [print]. *)
Inductive printed : Type :=
  | AskRows
  | AskColumns
  | IntegersOnly
  | TooSmall.

(** The function returns [rows, cols], or [input] meets the end of the
    input and its [EOFError], which no handler catches, ends the call. *)
Inductive prompt_outcome : Type :=
  | Answered (rows cols : Z) (out : list printed)
  | EOFError (out : list printed).

(** Lines 26-27. *)
Definition report_size (rows cols : Z) (out : list printed) : list printed :=
  if bool_decide (rows < MIN_ROWS ∨ cols < MIN_COLUMNS)
  then out ++ [TooSmall] else out.

(** The [while] loop of lines 20-27.  An answer is [Some n] when [int]
    accepts the line typed and [None] when it raises [ValueError]; after
    a [ValueError] on the rows the columns are not asked for, and
    whatever was assigned before the exception stays assigned. *)
Fixpoint prompt_loop (inputs : list (option Z)) (rows cols : Z)
    (out : list printed) : prompt_outcome :=
  if bool_decide (rows < MIN_ROWS ∨ cols < MIN_COLUMNS) then
    match inputs with
    | [] => EOFError (out ++ [AskRows])
    | None :: rest =>
        prompt_loop rest rows cols
          (report_size rows cols (out ++ [AskRows; IntegersOnly]))
    | Some r :: [] => EOFError (out ++ [AskRows; AskColumns])
    | Some r :: None :: rest =>
        prompt_loop rest r cols
          (report_size r cols (out ++ [AskRows; AskColumns; IntegersOnly]))
    | Some r :: Some c :: rest =>
        prompt_loop rest r c
          (report_size r c (out ++ [AskRows; AskColumns]))
    end
  else Answered rows cols out.

Definition prompt_grid_size (inputs : list (option Z)) : prompt_outcome :=
  prompt_loop inputs 0 0 [].

(** ** Random placement (lines 32-49) *)

(** [while len(obstacles) < num_obstacles: obstacles.add(...)] *)
Fixpoint obstacle_loop (fuel : nat) (num_rows num_cols num_obstacles : Z)
    (obstacles : gset cell) (rng : list Z) : result (gset cell * list Z) :=
  match fuel with
  | O => OutOfFuel
  | S fuel' =>
      if bool_decide (Z.of_nat (size obstacles) < num_obstacles) then
        r ← randint 0 (num_rows - 1) rng;
        c ← randint 0 (num_cols - 1) r.2;
        obstacle_loop fuel' num_rows num_cols num_obstacles
          ({[(r.1, c.1)]} ∪ obstacles) c.2
      else Ok (obstacles, rng)
  end.

Definition select_starting_position (num_cols : Z) (rng : list Z)
  : result (cell * list Z) :=
  c ← randint 0 (num_cols - 1) rng;
  Ok ((0, c.1), c.2).

(** The arguments [main] hands to [visualize_grid]. *)
Record scene : Type := {
  scene_obstacles : gset cell;
  scene_start : cell;
  scene_destination : cell;
  scene_path : list cell;
  scene_rows : Z;
  scene_cols : Z;
}.

Inductive main_outcome : Type :=
  | MainEOF (out : list printed)
  | MainRan (out : list printed) (shown : result scene).

Section float_roundings.

(** Two lines of the source round a float64 product; their values are
    taken as given:
    [round_percent percentage num_cells] for
    [round(percentage / 100 * num_cells)] (line 34) and
    [round_two_thirds num_cols] for [round(2 / 3 * num_cols)] (line 48). *)
Variable round_percent : Z → Z → Z.
Variable round_two_thirds : Z → Z.

Definition create_obstacle_set (fuel : nat) (num_rows num_cols percentage : Z)
    (rng : list Z) : result (gset cell * list Z) :=
  let num_cells := num_rows * num_cols in
  let num_obstacles := round_percent percentage num_cells in
  obstacle_loop fuel num_rows num_cols num_obstacles ∅ rng.

Definition select_destination_position (num_rows num_cols : Z) (rng : list Z)
  : result (cell * list Z) :=
  let row_threshold := num_rows `div` 2 in
  let col_threshold := round_two_thirds num_cols in
  r ← randint (row_threshold + 1) (num_rows - 1) rng;
  c ← randint col_threshold (num_cols - 1) r.2;
  Ok ((r.1, c.1), c.2).

(** Lines 122-128.  The set of obstacles is handed to
    [grassfire_algorithm] as the list of its elements; the order in which
    Python walks through the set does not matter there. *)
Definition main (inputs : list (option Z)) (fuel : nat) (rng : list Z)
  : main_outcome :=
  match prompt_grid_size inputs with
  | EOFError out => MainEOF out
  | Answered num_rows num_cols out =>
      MainRan out
        (let obstacle_percentage := 15 in
         o ← create_obstacle_set fuel num_rows num_cols obstacle_percentage rng;
         s ← select_starting_position num_cols o.2;
         d ← select_destination_position num_rows num_cols s.2;
         g ← grassfire_algorithm fuel (elements o.1) s.1 d.1 num_rows num_cols;
         Ok {| scene_obstacles := o.1; scene_start := s.1;
               scene_destination := d.1; scene_path := g.1;
               scene_rows := num_rows; scene_cols := num_cols |})
  end.

End float_roundings.

(** * Vocabulary of the specification *)

Definition in_bounds (num_rows num_cols : Z) (p : cell) : Prop :=
  0 ≤ p.1 < num_rows ∧ 0 ≤ p.2 < num_cols.

(** The array has [num_rows] rows of [num_cols] entries each. *)
Definition has_shape (num_rows num_cols : Z) (f : field) : Prop :=
  length f = Z.to_nat num_rows ∧
  Forall (λ row, length row = Z.to_nat num_cols) f.

(** Orthogonal neighbours: Manhattan distance 1. *)
Definition adjacent (p q : cell) : Prop :=
  Z.abs (p.1 - q.1) + Z.abs (p.2 - q.2) = 1.

(** [steps_from obstacles R C dest p n]: some sequence of [n] orthogonal
    steps leads from [dest] to [p], every cell stepped onto lying inside
    the grid and outside the obstacle set. *)
Inductive steps_from (obstacles : list cell) (R C : Z) (dest : cell)
  : cell → Z → Prop :=
  | steps_zero : steps_from obstacles R C dest dest 0
  | steps_next p q n :
      steps_from obstacles R C dest p n →
      adjacent p q → in_bounds R C q → q ∉ obstacles →
      steps_from obstacles R C dest q (n + 1).

(** [n] is the length of a shortest such sequence. *)
Definition shortest (obstacles : list cell) (R C : Z) (dest p : cell) (n : Z)
  : Prop :=
  steps_from obstacles R C dest p n ∧
  ∀ m, steps_from obstacles R C dest p m → n ≤ m.

(** ** The invariant of the wavefront expansion *)

(** [bfs_inv d f q cur]: the state while the wave stands at level [d].
    [cur] is the cell popped from the queue and not yet fully expanded,
    if any. *)
Record bfs_inv (R C : Z) (obstacles : list cell) (dest : cell)
    (d : Z) (f : field) (q : list cell) (cur : option cell) : Prop := {
  inv_shape : has_shape R C f;
  inv_dest : in_bounds R C dest ∧ getitem f dest = Ok (Fin 0);
  inv_nan : ∀ p, in_bounds R C p → getitem f p = Ok NaN ↔ p ∈ obstacles ∧ p ≠ dest;
  inv_fin : ∀ p e, in_bounds R C p → getitem f p = Ok (Fin e) →
            0 ≤ e ≤ d + 1 ∧ steps_from obstacles R C dest p e;
  inv_queue : ∃ A B, q = A ++ B ∧
              Forall (λ x, in_bounds R C x ∧ getitem f x = Ok (Fin d)) A ∧
              Forall (λ x, in_bounds R C x ∧ getitem f x = Ok (Fin (d + 1))) B;
  inv_cur : ∀ h, cur = Some h → in_bounds R C h ∧ getitem f h = Ok (Fin d);
  inv_closed : ∀ p e, in_bounds R C p → getitem f p = Ok (Fin e) →
               p ∉ q → cur ≠ Some p →
               ∀ n, adjacent p n → in_bounds R C n → getitem f n ≠ Ok Inf;
  inv_lip : ∀ p n e e', in_bounds R C p → in_bounds R C n → adjacent p n →
            getitem f p = Ok (Fin e) → getitem f n = Ok (Fin e') →
            e' ≤ e + 1;
  inv_pred : ∀ p e, in_bounds R C p → p ≠ dest → getitem f p = Ok (Fin e) →
             ∃ n, in_bounds R C n ∧ adjacent p n ∧ getitem f n = Ok (Fin (e - 1));
}.
Arguments inv_shape {R C obstacles dest d f q cur} _.
Arguments inv_dest {R C obstacles dest d f q cur} _.
Arguments inv_nan {R C obstacles dest d f q cur} _.
Arguments inv_fin {R C obstacles dest d f q cur} _.
Arguments inv_queue {R C obstacles dest d f q cur} _.
Arguments inv_cur {R C obstacles dest d f q cur} _.
Arguments inv_closed {R C obstacles dest d f q cur} _.
Arguments inv_lip {R C obstacles dest d f q cur} _.
Arguments inv_pred {R C obstacles dest d f q cur} _.

(** The [while] loop again, recording the cells in the order in which
    [queue.pop(0)] hands them out.  The queue is first-in first-out and the
    loop ends when it is empty, so at the end this is also the order in
    which the cells were put into the queue. *)
Fixpoint bfs_history (fuel : nat) (num_rows num_cols : Z)
    (f : field) (queue popped : list cell) : result (field * list cell) :=
  match fuel with
  | O => OutOfFuel
  | S fuel' =>
      match queue with
      | [] => Ok (f, popped)
      | h :: queue' =>
          st ← expand num_rows num_cols h (f, queue');
          bfs_history fuel' num_rows num_cols st.1 st.2 (popped ++ [h])
      end
  end.

(** The cells of the grid. *)
Definition all_cells (R C : Z) : list cell := cprod (seqZ 0 R) (seqZ 0 C).

(** [hist_inv R C f q seen]: the cells that were ever in the queue, [seen]
    (already popped) followed by [q] (still waiting), are pairwise distinct
    cells of the grid, none of them [Inf] any more. *)
Definition hist_inv (R C : Z) (f : field) (q seen : list cell) : Prop :=
  has_shape R C f ∧ NoDup (seen ++ q) ∧
  Forall (λ x, in_bounds R C x ∧ ∃ v, getitem f x = Ok v ∧ v ≠ Inf) (seen ++ q).


(** ** Distances and indices *)

(** The Manhattan distance of two cells. *)
Definition manhattan (p q : cell) : Z :=
  Z.abs (p.1 - q.1) + Z.abs (p.2 - q.2).

(** An index pair NumPy accepts for an array of [R] rows and [C] columns:
    each index may also be negative, counting from the end. *)
Definition valid_index (R C : Z) (p : cell) : Prop :=
  - R ≤ p.1 < R ∧ - C ≤ p.2 < C.

(** ** The walk, step by step *)

(** [descent f R C dest cur cells]: [cells] lists the cells the walk of
    lines 72-80 stands on, from [cur] until it reaches [dest], each one
    leading to the next by [walk_step]. *)
Inductive descent (f : field) (R C : Z) (dest : cell)
  : cell → list cell → Prop :=
  | descent_arrived : descent f R C dest dest [dest]
  | descent_move cur next cells :
      cur ≠ dest →
      walk_step f R C cur = Ok (Some next) →
      descent f R C dest next cells →
      descent f R C dest cur (cur :: cells).

(** * Reading and writing cells inside the grid *)

Lemma in_grid_true R C p : in_grid R C p = true ↔ in_bounds R C p.
Proof.
  unfold in_grid, in_bounds.
  rewrite andb_true_iff, !bool_decide_eq_true. tauto.
Qed.

Lemma in_grid_false R C p : in_grid R C p = false ↔ ¬ in_bounds R C p.
Proof. rewrite <- in_grid_true. destruct (in_grid R C p); naive_solver. Qed.

Lemma norm_index_inside n i :
  0 ≤ i < Z.of_nat n → norm_index n i = Some (Z.to_nat i).
Proof. intros H. unfold norm_index. by rewrite bool_decide_eq_true_2. Qed.

Lemma has_shape_row R C f i row :
  has_shape R C f → f !! i = Some row → length row = Z.to_nat C.
Proof.
  intros [_ Hrows] Hi. by eapply (Forall_lookup_1 _ _ _ _ Hrows).
Qed.

Lemma getitem_inside R C f p :
  has_shape R C f → in_bounds R C p →
  ∃ row v, f !! Z.to_nat p.1 = Some row ∧ row !! Z.to_nat p.2 = Some v ∧
           getitem f p = Ok v.
Proof.
  intros Hs [Hr Hc]. pose proof Hs as [Hlen _].
  destruct (lookup_lt_is_Some_2 f (Z.to_nat p.1)) as [row Hrow]; [lia|].
  pose proof (has_shape_row _ _ _ _ _ Hs Hrow) as Hrl.
  destruct (lookup_lt_is_Some_2 row (Z.to_nat p.2)) as [v Hv]; [lia|].
  exists row, v. split_and!; [done..|].
  unfold getitem. rewrite norm_index_inside by lia. rewrite Hrow.
  rewrite norm_index_inside by lia. by rewrite Hv.
Qed.

Lemma getitem_total R C f p :
  has_shape R C f → in_bounds R C p → ∃ v, getitem f p = Ok v.
Proof.
  intros Hs Hp. destruct (getitem_inside _ _ _ _ Hs Hp) as (?&v&?&?&?); eauto.
Qed.

Lemma setitem_inside R C f p v :
  has_shape R C f → in_bounds R C p →
  ∃ f', setitem f p v = Ok f' ∧ has_shape R C f' ∧
        getitem f' p = Ok v ∧
        ∀ q, in_bounds R C q → q ≠ p → getitem f' q = getitem f q.
Proof.
  intros Hs Hp.
  destruct (getitem_inside _ _ _ _ Hs Hp) as (row & v0 & Hrow & Hv0 & _).
  pose proof Hs as [Hlen Hrows]. destruct Hp as [Hr Hc].
  pose proof (has_shape_row _ _ _ _ _ Hs Hrow) as Hrl.
  pose proof (lookup_lt_Some _ _ _ Hrow) as Hi.
  pose proof (lookup_lt_Some _ _ _ Hv0) as Hj.
  exists (<[Z.to_nat p.1 := <[Z.to_nat p.2 := v]> row]> f).
  assert (Hs' : has_shape R C (<[Z.to_nat p.1 := <[Z.to_nat p.2 := v]> row]> f)).
  { split; [by rewrite length_insert|].
    apply Forall_insert; [done|]. by rewrite length_insert. }
  split_and!; [|done|..].
  - unfold setitem. rewrite norm_index_inside by lia. rewrite Hrow.
    by rewrite norm_index_inside by lia.
  - unfold getitem. rewrite length_insert, norm_index_inside by lia.
    rewrite list_lookup_insert_eq by done.
    rewrite length_insert, norm_index_inside by lia.
    by rewrite list_lookup_insert_eq by done.
  - intros q [Hqr Hqc] Hne. unfold getitem.
    rewrite length_insert, !norm_index_inside by lia.
    destruct (decide (Z.to_nat p.1 = Z.to_nat q.1)) as [Heq|Hneq].
    + rewrite <- Heq, list_lookup_insert_eq, Hrow by done.
      rewrite length_insert, !norm_index_inside by lia.
      rewrite list_lookup_insert_ne; [done|].
      intros Heq2. apply Hne. destruct p, q; simpl in *. f_equal; lia.
    + by rewrite list_lookup_insert_ne.
Qed.

(** * Orthogonal neighbours *)

Lemma adjacent_sym p q : adjacent p q → adjacent q p.
Proof. unfold adjacent. lia. Qed.

Lemma adjacent_irrefl p : ¬ adjacent p p.
Proof. unfold adjacent. lia. Qed.

Lemma adjacent_shift p d : d ∈ directions → adjacent p (shift p d).
Proof.
  unfold directions. rewrite !elem_of_cons, elem_of_nil.
  intros [->|[->|[->|[->|[]]]]]; unfold adjacent, shift; simpl; lia.
Qed.

Lemma adjacent_is_shift p q :
  adjacent p q → ∃ d, d ∈ directions ∧ q = shift p d.
Proof.
  destruct p as [r c], q as [r' c']. unfold adjacent, shift. simpl. intros H.
  assert ((r' = r - 1 ∧ c' = c) ∨ (r' = r + 1 ∧ c' = c) ∨
          (r' = r ∧ c' = c - 1) ∨ (r' = r ∧ c' = c + 1))
    as [[-> ->]|[[-> ->]|[[-> ->]|[-> ->]]]] by lia.
  - exists (-1, 0). split; [set_solver|]. simpl. f_equal; lia.
  - exists (1, 0). split; [set_solver|]. simpl. f_equal; lia.
  - exists (0, -1). split; [set_solver|]. simpl. f_equal; lia.
  - exists (0, 1). split; [set_solver|]. simpl. f_equal; lia.
Qed.

(** * Monadic plumbing *)

Lemma bind_Ok {A B} (m : result A) (k : A → result B) b :
  m ≫= k = Ok b ↔ ∃ a, m = Ok a ∧ k a = Ok b.
Proof.
  destruct m as [a| |]; simpl.
  - split; [eauto|]. by intros (a' & [= <-] & ?).
  - split; [done|]. by intros (? & ? & ?).
  - split; [done|]. by intros (? & ? & ?).
Qed.

(** * One direction of the expansion *)

(** What [visit] does, case by case: either the neighbour is inside the
    grid and still [Inf], and then it alone is written and appended to the
    queue; or nothing changes. *)
Lemma visit_cases R C h f q d :
  has_shape R C f → in_bounds R C h →
  (in_bounds R C (shift h d) ∧ getitem f (shift h d) = Ok Inf ∧
   ∃ hv f', getitem f h = Ok hv ∧
     visit R C h (f, q) d = Ok (f', q ++ [shift h d]) ∧
     has_shape R C f' ∧
     getitem f' (shift h d) = Ok (fadd1 hv) ∧
     ∀ p, in_bounds R C p → p ≠ shift h d → getitem f' p = getitem f p)
  ∨
  ((in_bounds R C (shift h d) → ∃ v, getitem f (shift h d) = Ok v ∧ v ≠ Inf) ∧
   visit R C h (f, q) d = Ok (f, q)).
Proof.
  intros Hs Hh. unfold visit. simpl.
  destruct (in_grid R C (shift h d)) eqn:Hg.
  - apply in_grid_true in Hg.
    destruct (getitem_total _ _ _ _ Hs Hg) as [v Hv]. rewrite Hv. simpl.
    destruct v as [n| |]; simpl.
    + right. split; [|done]. intros _. by exists (Fin n).
    + left. split_and!; [done..|].
      destruct (getitem_total _ _ _ _ Hs Hh) as [hv Hhv].
      destruct (setitem_inside _ _ _ _ (fadd1 hv) Hs Hg)
        as (f' & Hset & Hs' & Hget & Hother).
      exists hv, f'. rewrite Hhv. simpl. rewrite Hset. simpl. done.
    + right. split; [|done]. intros _. by exists NaN.
  - apply in_grid_false in Hg. right. split; [done|done].
Qed.

(** Entries other than [Inf] survive a visit; the shape does too. *)
Lemma visit_frame R C h f q d f' q' :
  has_shape R C f → visit R C h (f, q) d = Ok (f', q') →
  has_shape R C f' ∧
  ∀ p v, in_bounds R C p → getitem f p = Ok v → v ≠ Inf → getitem f' p = Ok v.
Proof.
  intros Hs. unfold visit. simpl.
  destruct (in_grid R C (shift h d)) eqn:Hg; [|by intros [= <- <-]].
  apply in_grid_true in Hg.
  destruct (getitem f (shift h d)) as [v| |] eqn:Hv; simpl; [|done..].
  destruct (isinf v) eqn:Hinf; [|by intros [= <- <-]].
  destruct v; try done.
  destruct (getitem f h) as [hv| |]; simpl; [|done..].
  destruct (setitem_inside _ _ _ _ (fadd1 hv) Hs Hg)
    as (f1 & Hset & Hs' & Hget & Hother).
  rewrite Hset. simpl. intros [= <- <-]. split; [done|].
  intros p v Hp Hpv Hne. rewrite Hother; [done..|].
  intros ->. congruence.
Qed.

(** * The invariant of the wavefront expansion *)

Section expansion.
Variables (R C : Z) (obstacles : list cell) (dest : cell).

Local Abbreviation inb := (in_bounds R C).
Local Abbreviation reach := (steps_from obstacles R C dest).
Local Abbreviation inv := (bfs_inv R C obstacles dest).


(** Every queued cell holds the level [d] or [d + 1]. *)
Lemma inv_queue_value d f q cur x :
  inv d f q cur → x ∈ q →
  inb x ∧ (getitem f x = Ok (Fin d) ∨ getitem f x = Ok (Fin (d + 1))).
Proof.
  intros Hinv Hx. destruct (inv_queue Hinv) as (A & B & -> & HA & HB).
  rewrite Forall_forall in HA, HB.
  apply elem_of_app in Hx as [Hx|Hx];
    [apply HA in Hx as [? ?]|apply HB in Hx as [? ?]]; auto.
Qed.

Lemma visit_inv d f q h dir :
  dir ∈ directions →
  inv d f q (Some h) →
  ∃ f' q', visit R C h (f, q) dir = Ok (f', q') ∧
           inv d f' q' (Some h) ∧
           (inb (shift h dir) →
            ∃ v, getitem f' (shift h dir) = Ok v ∧ v ≠ Inf).
Proof.
  intros Hdir Hinv.
  destruct (inv_cur Hinv h eq_refl) as [Hh Hhv].
  destruct (inv_dest Hinv) as [Hd Hdv].
  destruct (visit_cases R C h f q dir (inv_shape Hinv) Hh)
    as [(Hn & HnInf & hv & f' & Hhv' & Hvisit & Hs' & Hnew & Hother)
       |[Hsame Hvisit]]; [|by eauto].
  assert (Hadj : adjacent h (shift h dir)) by (by apply adjacent_shift).
  set (n := shift h dir) in *. clearbody n.
  assert (hv = Fin d) as -> by congruence. simpl in Hnew.
  destruct (inv_fin Hinv h d Hh Hhv) as [Hd0 Hreach].
  assert (Hnd : n ≠ dest) by (intros Heq; rewrite Heq in HnInf; congruence).
  assert (Hnobs : n ∉ obstacles).
  { intros Hin. assert (getitem f n = Ok NaN) by (apply (inv_nan Hinv); done).
    congruence. }
  assert (Hnq : n ∉ q).
  { intros Hin. destruct (inv_queue_value _ _ _ _ _ Hinv Hin) as [_ [?|?]];
      congruence. }
  exists f', (q ++ [n]). split_and!; [done| |by eauto].
  constructor.
  - done.
  - split; [done|]. by rewrite Hother.
  - intros p Hp. destruct (decide (p = n)) as [->|Hne].
    + rewrite Hnew. split; [done|]. by intros [? _].
    + rewrite Hother by done. by apply (inv_nan Hinv).
  - intros p e Hp. destruct (decide (p = n)) as [->|Hne].
    + rewrite Hnew. intros [= <-]. split; [lia|].
      by apply steps_next with h.
    + rewrite Hother by done. by apply (inv_fin Hinv).
  - destruct (inv_queue Hinv) as (A & B & -> & HA & HB).
    exists A, (B ++ [n]). split; [by rewrite app_assoc|].
    assert (Hkeep : ∀ x v, inb x ∧ getitem f x = Ok (Fin v) →
                           inb x ∧ getitem f' x = Ok (Fin v)).
    { intros x v [Hx Hxv]. split; [done|]. rewrite Hother; [done..|].
      intros ->. congruence. }
    split.
    + eapply Forall_impl; [exact HA|]. intros x. apply Hkeep.
    + apply Forall_app. split.
      * eapply Forall_impl; [exact HB|]. intros x. apply Hkeep.
      * by apply Forall_singleton.
  - intros h' [= <-]. split; [done|]. rewrite Hother; [done..|].
    intros ->. congruence.
  - intros p e Hp Hpe Hpq Hpc m Hadjm Hm.
    assert (Hpn : p ≠ n) by (intros ->; apply Hpq; set_solver).
    rewrite Hother in Hpe by done.
    destruct (decide (m = n)) as [->|Hmn]; [by rewrite Hnew|].
    rewrite Hother by done.
    apply (inv_closed Hinv p e); [done|done| |done|done|done].
    intros Hin. apply Hpq. set_solver.
  - intros p m e e' Hp Hm Hadjm.
    destruct (decide (p = n)) as [->|Hpn];
      destruct (decide (m = n)) as [->|Hmn].
    + by destruct (adjacent_irrefl n).
    + rewrite Hnew, Hother by done. intros [= <-] Hme.
      destruct (inv_fin Hinv m e' Hm Hme). lia.
    + rewrite Hnew, Hother by done. intros Hpe [= <-].
      destruct (decide (d ≤ e)) as [|Hlt]; [lia|]. exfalso.
      apply (inv_closed Hinv p e Hp Hpe) with n; [| |done..].
      * intros Hin.
        destruct (inv_queue_value _ _ _ _ _ Hinv Hin) as [_ [Hv|Hv]];
          rewrite Hpe in Hv; injection Hv as Hv; lia.
      * intros [= ->]. rewrite Hpe in Hhv. injection Hhv as Hv. lia.
    + rewrite !Hother by done. by apply (inv_lip Hinv).
  - intros p e Hp Hpd. destruct (decide (p = n)) as [->|Hpn].
    + rewrite Hnew. intros [= <-]. exists h. split_and!; [done|by apply adjacent_sym|].
      rewrite Hother; [|done|]. { by replace (d + 1 - 1) with d by lia. }
      intros ->. congruence.
    + rewrite Hother by done. intros Hpe.
      destruct (inv_pred Hinv p e Hp Hpd Hpe) as (m & Hm & Hadjm & Hme).
      exists m. split_and!; [done..|]. rewrite Hother; [done..|].
      intros ->. congruence.
Qed.

(** Entries other than [Inf] survive any number of visits. *)
Lemma visits_frame h ds f q f' q' :
  has_shape R C f → foldM (visit R C h) (f, q) ds = Ok (f', q') →
  has_shape R C f' ∧
  ∀ p v, inb p → getitem f p = Ok v → v ≠ Inf → getitem f' p = Ok v.
Proof.
  revert f q. induction ds as [|dir ds IH]; intros f q Hs; simpl.
  - by intros [= <- <-].
  - intros Hrun. apply bind_Ok in Hrun as ([f1 q1] & Hv & Hrest).
    destruct (visit_frame _ _ _ _ _ _ _ _ Hs Hv) as [Hs1 Hfr1].
    destruct (IH _ _ Hs1 Hrest) as [Hs' Hfr']. split; [done|].
    intros p v Hp Hpv Hne. apply Hfr'; [done| |done]. by apply Hfr1.
Qed.

Lemma visits_inv d h ds f q :
  ds ⊆ directions →
  inv d f q (Some h) →
  ∃ f' q', foldM (visit R C h) (f, q) ds = Ok (f', q') ∧
           inv d f' q' (Some h) ∧
           ∀ dir, dir ∈ ds → inb (shift h dir) →
                  getitem f' (shift h dir) ≠ Ok Inf.
Proof.
  revert f q. induction ds as [|dir ds IH]; intros f q Hsub Hinv; simpl.
  - exists f, q. split_and!; [done..|]. by intros dir Hin%elem_of_nil.
  - destruct (visit_inv d f q h dir) as (f1 & q1 & Hv & Hinv1 & Hdone);
      [set_solver|done|].
    destruct (IH f1 q1) as (f' & q' & Hrest & Hinv' & Hdone');
      [set_solver|done|].
    exists f', q'. rewrite Hv. simpl. split_and!; [done..|].
    intros dir' [->|Hin]%elem_of_cons Hb; [|by apply Hdone'].
    destruct (Hdone Hb) as (v & Hgv & Hne).
    destruct (visits_frame _ _ _ _ _ _ (inv_shape Hinv1) Hrest)
      as [_ Hfr].
    rewrite (Hfr _ _ Hb Hgv Hne). congruence.
Qed.

(** One pass of the [while] body keeps the invariant and leaves the
    popped cell with no [Inf] neighbour. *)
Lemma expand_inv d f q h :
  inv d f q (Some h) →
  ∃ f' q', expand R C h (f, q) = Ok (f', q') ∧ inv d f' q' None.
Proof.
  intros Hinv.
  destruct (visits_inv d h directions f q) as (f' & q' & Hrun & Hinv' & Hdone);
    [done..|].
  exists f', q'. split; [done|].
  destruct Hinv' as [Hs Hd Hnan Hfin Hq Hcur Hcl Hlip Hpred].
  constructor; try done.
  intros p e Hp Hpe Hpq _ n Hadj Hn.
  destruct (decide (p = h)) as [->|Hne].
  - destruct (adjacent_is_shift _ _ Hadj) as (dir & Hdir & ->).
    by apply Hdone.
  - apply (Hcl p e); [done..| |done|done]. congruence.
Qed.

(** Popping the head of a non-empty queue. *)
Lemma pop_inv d f h q :
  inv d f (h :: q) None → ∃ d', inv d' f q (Some h).
Proof.
  intros [Hs Hd Hnan Hfin Hq Hcur Hcl Hlip Hpred].
  destruct Hq as (A & B & Heq & HA & HB).
  destruct A as [|a A]; simpl in Heq.
  - destruct B as [|b B]; simplify_eq.
    apply Forall_cons in HB as [[Hh Hhv] HB].
    exists (d + 1). constructor; try done.
    + intros p e Hp Hpe. destruct (Hfin p e Hp Hpe). split; [lia|done].
    + exists B, []. rewrite app_nil_r. by split_and!.
    + by intros ? [= <-].
    + intros p e Hp Hpe Hpq Hpc. apply (Hcl p e); [done..| |done].
      intros [->|?]%elem_of_cons; [by apply Hpc|done].
  - simplify_eq. apply Forall_cons in HA as [[Hh Hhv] HA].
    exists d. constructor; try done.
    + by exists A, B.
    + by intros ? [= <-].
    + intros p e Hp Hpe Hpq Hpc. apply (Hcl p e); [done..| |done].
      intros [->|?]%elem_of_cons; [by apply Hpc|done].
Qed.

(** Partial correctness of the [while] loop: whatever it returns
    satisfies the invariant with an empty queue. *)
Lemma bfs_loop_inv fuel : ∀ d f q f',
  inv d f q None → bfs_loop fuel R C f q = Ok f' →
  ∃ d', inv d' f' [] None.
Proof.
  induction fuel as [|fuel IH]; intros d f q f' Hinv; simpl; [done|].
  destruct q as [|h q]; [intros [= <-]; eauto|].
  destruct (pop_inv _ _ _ _ Hinv) as [d1 Hinv1].
  destruct (expand_inv _ _ _ _ Hinv1) as (f1 & q1 & Hexp & Hinv2).
  rewrite Hexp. simpl. by apply IH with d1.
Qed.

(** What the invariant gives once the queue is empty. *)
Lemma final_complete d f p n :
  inv d f [] None → reach p n →
  inb p ∧ ∃ e, getitem f p = Ok (Fin e) ∧ e ≤ n.
Proof.
  intros Hinv. induction 1 as [|p q n Hreach [Hp (e & Hpe & Hle)] Hadj Hq Hobs].
  - destruct (inv_dest Hinv) as [Hd Hdv]. split; [done|].
    exists 0. split; [done|lia].
  - split; [done|].
    destruct (getitem_total _ _ _ _ (inv_shape Hinv) Hq) as [v Hv].
    destruct v as [e'| |].
    + exists e'. split; [done|].
      pose proof (inv_lip Hinv p q e e' Hp Hq Hadj Hpe Hv). lia.
    + exfalso. apply (inv_closed Hinv p e Hp Hpe) with q; try done.
      by intros ?%elem_of_nil.
    + apply (inv_nan Hinv) in Hv as [? _]; done.
Qed.

Lemma final_shortest d f p e :
  inv d f [] None → inb p →
  getitem f p = Ok (Fin e) ↔ shortest obstacles R C dest p e.
Proof.
  intros Hinv Hp. split.
  - intros Hpe. destruct (inv_fin Hinv p e Hp Hpe) as [_ Hreach].
    split; [done|]. intros m Hm.
    destruct (final_complete _ _ _ _ Hinv Hm) as (_ & e' & He' & Hle).
    congruence.
  - intros [Hreach Hmin].
    destruct (final_complete _ _ _ _ Hinv Hreach) as (_ & e' & He' & Hle).
    destruct (inv_fin Hinv p e' Hp He') as [_ Hreach'].
    apply Hmin in Hreach'. by replace e with e' by lia.
Qed.

End expansion.

(** * The array before the expansion *)

Section initial.
Variables (R C : Z) (obstacles : list cell) (dest : cell).
Hypothesis dest_inside : in_bounds R C dest.
Hypothesis obstacles_inside : Forall (in_bounds R C) obstacles.

Local Abbreviation inb := (in_bounds R C).

Lemma np_full_inside v :
  ∃ f, np_full R C v = Ok f ∧ has_shape R C f ∧
       ∀ p, inb p → getitem f p = Ok v.
Proof.
  destruct dest_inside as [Hr Hc].
  unfold np_full. rewrite bool_decide_eq_false_2 by lia.
  eexists. split; [done|].
  assert (Hs : has_shape R C
            (replicate (Z.to_nat R) (replicate (Z.to_nat C) v))).
  { split; [by rewrite length_replicate|].
    apply Forall_replicate. by rewrite length_replicate. }
  split; [done|]. intros p Hp.
  destruct (getitem_inside _ _ _ _ Hs Hp) as (row & w & Hrow & Hw & ->).
  apply lookup_replicate in Hrow as [-> _].
  apply lookup_replicate in Hw as [-> _]. done.
Qed.

Lemma mark_obstacles_inside obs : ∀ f,
  Forall inb obs → has_shape R C f →
  ∃ f', foldM (λ f obstacle, setitem f obstacle NaN) f obs = Ok f' ∧
        has_shape R C f' ∧
        ∀ p, inb p →
             getitem f' p = if decide (p ∈ obs) then Ok NaN else getitem f p.
Proof.
  induction obs as [|o obs IH]; intros f Hobs Hs; simpl.
  - by exists f.
  - apply Forall_cons in Hobs as [Ho Hobs].
    destruct (setitem_inside _ _ _ _ NaN Hs Ho) as (f1 & Hset & Hs1 & Hg1 & Hoth1).
    destruct (IH f1 Hobs Hs1) as (f' & Hrun & Hs' & Hval).
    exists f'. rewrite Hset. simpl. split_and!; [done..|].
    intros p Hp. rewrite (Hval p Hp).
    destruct (decide (p = o)) as [->|Hne].
    + rewrite Hg1. repeat case_decide; set_solver.
    + rewrite Hoth1 by done. repeat case_decide; set_solver.
Qed.

(** The array after lines 54-57, entry by entry. *)
Lemma init_field_inside :
  ∃ f, init_field obstacles dest R C = Ok f ∧ has_shape R C f ∧
       ∀ p, inb p →
            getitem f p =
            Ok (if decide (p = dest) then Fin 0
                else if decide (p ∈ obstacles) then NaN else Inf).
Proof.
  destruct (np_full_inside Inf) as (f0 & Hfull & Hs0 & Hv0).
  destruct (mark_obstacles_inside obstacles f0 obstacles_inside Hs0)
    as (f1 & Hmark & Hs1 & Hv1).
  destruct (setitem_inside _ _ _ _ (Fin 0) Hs1 dest_inside)
    as (f2 & Hset & Hs2 & Hg2 & Hoth2).
  exists f2. unfold init_field. rewrite Hfull. simpl. rewrite Hmark. simpl.
  split_and!; [done..|]. intros p Hp.
  destruct (decide (p = dest)) as [->|Hne]; [done|].
  rewrite Hoth2, Hv1 by done.
  destruct (decide (p ∈ obstacles)); [done|]. by apply Hv0.
Qed.

Lemma init_field_inv f :
  init_field obstacles dest R C = Ok f →
  bfs_inv R C obstacles dest 0 f [dest] None.
Proof.
  destruct init_field_inside as (f' & Hrun & Hs & Hval).
  rewrite Hrun. intros [= <-].
  assert (Hfin : ∀ p e, inb p → getitem f' p = Ok (Fin e) → p = dest ∧ e = 0).
  { intros p e Hp. rewrite (Hval p Hp).
    destruct (decide (p = dest)); [by intros [= <-]|].
    by destruct (decide (p ∈ obstacles)). }
  constructor.
  - done.
  - split; [done|]. by rewrite Hval, decide_True.
  - intros p Hp. rewrite (Hval p Hp).
    destruct (decide (p = dest)); [naive_solver|].
    destruct (decide (p ∈ obstacles)); naive_solver.
  - intros p e Hp Hpe. destruct (Hfin p e Hp Hpe) as [-> ->].
    split; [lia|constructor].
  - exists [dest], []. split_and!; [done| |done].
    apply Forall_singleton. split; [done|]. by rewrite Hval, decide_True.
  - done.
  - intros p e Hp Hpe Hnq. destruct (Hfin p e Hp Hpe) as [-> ->].
    destruct Hnq. set_solver.
  - intros p n e e' Hp Hn Hadj Hpe Hne.
    destruct (Hfin p e Hp Hpe) as [-> ->].
    destruct (Hfin n e' Hn Hne) as [-> ->].
    by destruct (adjacent_irrefl dest).
  - intros p e Hp Hne Hpe. by destruct (Hfin p e Hp Hpe).
Qed.

End initial.

(** * Termination of the expansion and the history of the queue *)

Lemma bfs_history_field fuel R C : ∀ f q popped,
  bfs_loop fuel R C f q = x ← bfs_history fuel R C f q popped; Ok x.1.
Proof.
  induction fuel as [|fuel IH]; intros f q popped; simpl; [done|].
  destruct q as [|h q]; [done|].
  destruct (expand R C h (f, q)) as [[f1 q1]| |]; simpl; [|done..].
  apply IH.
Qed.

Lemma bfs_loop_fuel_mono n R C : ∀ f q m,
  bfs_loop n R C f q ≠ OutOfFuel → (n ≤ m)%nat →
  bfs_loop m R C f q = bfs_loop n R C f q.
Proof.
  induction n as [|n IH]; intros f q m; simpl; [done|].
  intros Hrun Hle. destruct m as [|m]; [lia|]. simpl.
  destruct q as [|h q]; [done|].
  destruct (expand R C h (f, q)) as [[f1 q1]| |]; simpl in *; [|done..].
  apply IH; [done|lia].
Qed.

(** A run of lines 54-67 that ends gives the same outcome whatever the
    fuel: less fuel can only run out. *)
Lemma compute_field_fuel n m obstacles dest R C :
  compute_field n obstacles dest R C ≠ OutOfFuel →
  compute_field m obstacles dest R C = compute_field n obstacles dest R C ∨
  compute_field m obstacles dest R C = OutOfFuel.
Proof.
  unfold compute_field.
  destruct (init_field obstacles dest R C) as [f0| |]; simpl; [|auto..].
  intros Hn. destruct (decide (n ≤ m)%nat) as [Hle|Hgt].
  - left. by apply bfs_loop_fuel_mono.
  - destruct (bfs_loop m R C f0 [dest]) as [f| |] eqn:Hm; [| |by right].
    + left. rewrite <- Hm. symmetry. apply bfs_loop_fuel_mono; [|lia].
      by rewrite Hm.
    + left. rewrite <- Hm. symmetry. apply bfs_loop_fuel_mono; [|lia].
      by rewrite Hm.
Qed.

Lemma all_cells_spec R C p : p ∈ all_cells R C ↔ in_bounds R C p.
Proof.
  unfold all_cells, in_bounds. rewrite list_elem_of_cprod, !elem_of_seqZ. lia.
Qed.

Lemma all_cells_length R C :
  length (all_cells R C) = (Z.to_nat R * Z.to_nat C)%nat.
Proof.
  unfold all_cells. by rewrite list_cprod_list_prod, length_prod, !length_seqZ.
Qed.

(** Pairwise distinct cells of the grid are at most [R * C] many. *)
Lemma distinct_cells_bound R C l :
  NoDup l → Forall (in_bounds R C) l →
  (length l ≤ Z.to_nat R * Z.to_nat C)%nat.
Proof.
  intros Hnd Hin. rewrite <- all_cells_length.
  apply submseteq_length, NoDup_submseteq; [done|].
  intros x Hx. apply all_cells_spec. rewrite Forall_forall in Hin. auto.
Qed.

Lemma visit_hist R C h dir f q seen :
  hist_inv R C f q seen → h ∈ seen →
  ∃ f' q', visit R C h (f, q) dir = Ok (f', q') ∧ hist_inv R C f' q' seen.
Proof.
  intros (Hs & Hnd & Hall) Hh.
  rewrite Forall_forall in Hall.
  destruct (Hall h) as (Hhin & hv0 & Hhv0 & Hhne); [set_solver|].
  destruct (visit_cases R C h f q dir Hs Hhin)
    as [(Hn & HnInf & hv & f' & Hhv & Hvisit & Hs' & Hnew & Hother)
       |[_ Hvisit]].
  - set (n := shift h dir) in *. clearbody n.
    assert (Hfresh : n ∉ seen ++ q).
    { intros Hin. destruct (Hall n Hin) as (_ & v & Hv & Hne). congruence. }
    exists f', (q ++ [n]). split; [done|]. split_and!; [done| |].
    + rewrite app_assoc. apply NoDup_app. split_and!; [done| |apply NoDup_singleton].
      intros x Hx ->%list_elem_of_singleton. done.
    + rewrite app_assoc. apply Forall_app. split.
      * apply Forall_forall. intros x Hx.
        destruct (Hall x Hx) as (Hxin & v & Hv & Hne). split; [done|].
        exists v. split; [|done]. rewrite Hother; [done..|]. by intros ->.
      * apply Forall_singleton. split; [done|]. exists (fadd1 hv).
        split; [done|]. assert (hv = hv0) as -> by congruence.
        by destruct hv0.
  - exists f, q. split; [done|]. split_and!; [done..|]. by apply Forall_forall.
Qed.

Lemma expand_hist R C h f q seen :
  hist_inv R C f q seen → h ∈ seen →
  ∃ f' q', expand R C h (f, q) = Ok (f', q') ∧ hist_inv R C f' q' seen.
Proof.
  intros Hinv Hh. unfold expand. revert f q Hinv.
  induction directions as [|dir ds IH]; intros f q Hinv; simpl; [by eauto|].
  destruct (visit_hist R C h dir f q seen Hinv Hh) as (f1 & q1 & -> & Hinv1).
  simpl. by apply IH.
Qed.

(** With more fuel than cells not yet popped, the loop comes to its end,
    and the cells it popped are pairwise distinct cells of the grid. *)
Lemma bfs_history_terminates R C fuel : ∀ f q popped,
  hist_inv R C f q popped →
  (Z.to_nat R * Z.to_nat C < length popped + fuel)%nat →
  ∃ f' enq, bfs_history fuel R C f q popped = Ok (f', enq) ∧
            NoDup enq ∧ Forall (in_bounds R C) enq ∧
            (length enq ≤ Z.to_nat R * Z.to_nat C)%nat.
Proof.
  induction fuel as [|fuel IH]; intros f q popped Hinv Hfuel.
  - exfalso. destruct Hinv as (_ & Hnd & Hall).
    assert (Hall' : Forall (in_bounds R C) (popped ++ q)).
    { eapply Forall_impl; [exact Hall|]. by intros x [? _]. }
    pose proof (distinct_cells_bound R C _ Hnd Hall') as Hlen.
    rewrite length_app in Hlen. lia.
  - simpl. destruct q as [|h q].
    + destruct Hinv as (_ & Hnd & Hall). rewrite app_nil_r in Hnd, Hall.
      assert (Hall' : Forall (in_bounds R C) popped).
      { eapply Forall_impl; [exact Hall|]. by intros x [? _]. }
      exists f, popped. split_and!; [done..|].
      by apply distinct_cells_bound.
    + assert (Hinv' : hist_inv R C f q (popped ++ [h])).
      { destruct Hinv as (Hs & Hnd & Hall). unfold hist_inv.
        by rewrite <- !(assoc_L (++)). }
      destruct (expand_hist R C h f q (popped ++ [h]) Hinv')
        as (f1 & q1 & -> & Hinv1); [set_solver|].
      simpl. apply IH; [done|]. rewrite length_app. simpl. lia.
Qed.

Lemma compute_field_more_fuel n m obstacles dest R C f :
  compute_field n obstacles dest R C = Ok f → (n ≤ m)%nat →
  compute_field m obstacles dest R C = Ok f.
Proof.
  unfold compute_field.
  destruct (init_field obstacles dest R C) as [f0| |]; [|done..].
  cbv [mbind result_bind]. intros Hn Hle.
  rewrite (bfs_loop_fuel_mono n); [done|by rewrite Hn|done].
Qed.

(** * The distance field of a run *)

(** Inside the grid the expansion ends within [R * C] passes, every later
    run returns the same array, and that array satisfies the invariant
    with an empty queue. *)
Lemma field_of_run R C obstacles dest :
  in_bounds R C dest → Forall (in_bounds R C) obstacles →
  ∃ f, compute_field (S (Z.to_nat (R * C))) obstacles dest R C = Ok f ∧
       (∃ d, bfs_inv R C obstacles dest d f [] None) ∧
       ∀ fuel f', compute_field fuel obstacles dest R C = Ok f' → f' = f.
Proof.
  intros Hd Hobs.
  destruct (init_field_inside R C obstacles dest Hd Hobs) as (f0 & Hinit & Hs0 & Hv0).
  pose proof (init_field_inv R C obstacles dest Hd Hobs f0 Hinit) as Hinv0.
  assert (Hh0 : hist_inv R C f0 [dest] []).
  { split_and!; [done|apply NoDup_singleton|]. apply Forall_singleton.
    split; [done|]. exists (Fin 0). split; [|done].
    by rewrite Hv0, decide_True. }
  destruct (bfs_history_terminates R C (S (Z.to_nat (R * C))) f0 [dest] [] Hh0)
    as (f & enq & Hhist & _).
  { destruct Hd. simpl. rewrite Z2Nat.inj_mul by lia. lia. }
  assert (Hloop : bfs_loop (S (Z.to_nat (R * C))) R C f0 [dest] = Ok f).
  { by rewrite (bfs_history_field _ _ _ _ _ []), Hhist. }
  assert (Hcf : ∀ k, compute_field k obstacles dest R C
                     = bfs_loop k R C f0 [dest]).
  { intros k. unfold compute_field. by rewrite Hinit. }
  exists f. split_and!.
  - by rewrite Hcf.
  - by eapply bfs_loop_inv.
  - intros fuel f' Hrun.
    destruct (compute_field_fuel fuel (S (Z.to_nat (R * C))) obstacles dest R C)
      as [Heq|Heq]; [by rewrite Hrun|..]; rewrite !Hcf in *; congruence.
Qed.

(** The whole loop leaves entries other than [Inf] alone. *)
Lemma bfs_loop_frame R C fuel : ∀ f q f',
  has_shape R C f → bfs_loop fuel R C f q = Ok f' →
  ∀ p v, in_bounds R C p → getitem f p = Ok v → v ≠ Inf → getitem f' p = Ok v.
Proof.
  induction fuel as [|fuel IH]; intros f q f' Hs; simpl; [done|].
  destruct q as [|h q]; [by intros [= <-]|].
  intros Hrun. apply bind_Ok in Hrun as ([f1 q1] & Hexp & Hrest).
  destruct (visits_frame _ _ _ _ _ _ _ _ Hs Hexp) as [Hs1 Hfr1].
  intros p v Hp Hpv Hne. eapply IH; [exact Hs1|exact Hrest|done| |done].
  by apply Hfr1.
Qed.

(** The queue only grows at its end. *)
Lemma expand_appends R C h f q f' q' :
  expand R C h (f, q) = Ok (f', q') → ∃ new, q' = q ++ new.
Proof.
  unfold expand. revert f q.
  induction directions as [|dir ds IH]; intros f q; simpl.
  - intros [= <- <-]. exists []. by rewrite app_nil_r.
  - intros Hrun. apply bind_Ok in Hrun as ([f1 q1] & Hv & Hrest).
    destruct (IH _ _ Hrest) as [new ->].
    unfold visit in Hv. simpl in Hv.
    destruct (in_grid R C (shift h dir)); [|simplify_eq; by eauto].
    destruct (getitem f (shift h dir)) as [v| |]; simpl in Hv; [|done..].
    destruct (isinf v); [|simplify_eq; by eauto].
    destruct (getitem f h) as [hv| |]; simpl in Hv; [|done..].
    destruct (setitem f (shift h dir) (fadd1 hv)); simpl in Hv; [|done..].
    simplify_eq. exists ([shift h dir] ++ new). by rewrite app_assoc.
Qed.

(** What [grassfire_algorithm] returns comes from its two phases. *)
Lemma grassfire_algorithm_Ok fuel obstacles start dest R C path f :
  grassfire_algorithm fuel obstacles start dest R C = Ok (path, f) ↔
  compute_field fuel obstacles dest R C = Ok f ∧
  reconstruct fuel f start dest R C = Ok path.
Proof.
  unfold grassfire_algorithm. rewrite bind_Ok. split.
  - intros (f1 & Hf & Hrest). apply bind_Ok in Hrest as (p1 & Hp & [= <- <-]).
    done.
  - intros [Hf Hp]. exists f. split; [done|]. by rewrite Hp.
Qed.

(** * The distance field: the claims *)

(** C1. For a grid [R] x [C], obstacles inside the grid and a destination
    inside the grid, the expansion of lines 54-67 ends (within [R * C]
    passes of its loop) with an array [f], the array every run of
    [grassfire_algorithm] returns, in which
    - every cell reachable from the destination by orthogonal steps onto
      non-obstacle cells of the grid holds the length of a shortest such
      sequence of steps,
    - every cell that cannot be reached holds [Inf] or [NaN], and
    - every obstacle cell (other than the destination, which line 57 resets
      to [0]) still holds the [NaN] written by line 56. *)
Theorem field_is_shortest_distance R C obstacles dest :
  in_bounds R C dest → Forall (in_bounds R C) obstacles →
  ∃ f, compute_field (S (Z.to_nat (R * C))) obstacles dest R C = Ok f ∧
       (∀ fuel start path f',
          grassfire_algorithm fuel obstacles start dest R C = Ok (path, f') →
          f' = f) ∧
       ∀ p, in_bounds R C p →
         (∀ n, steps_from obstacles R C dest p n →
               ∃ e, getitem f p = Ok (Fin e) ∧ shortest obstacles R C dest p e) ∧
         ((∀ n, ¬ steps_from obstacles R C dest p n) →
          getitem f p = Ok Inf ∨ getitem f p = Ok NaN) ∧
         (p ∈ obstacles → p ≠ dest → getitem f p = Ok NaN).
Proof.
  intros Hd Hobs.
  destruct (field_of_run R C obstacles dest Hd Hobs) as (f & Hrun & [d Hinv] & Hdet).
  exists f. split_and!; [done| |].
  - intros fuel start path f' [Hf _]%grassfire_algorithm_Ok. by eapply Hdet.
  - intros p Hp. split_and!.
    + intros n Hn.
      destruct (final_complete _ _ _ _ _ _ _ _ Hinv Hn) as (_ & e & He & _).
      exists e. split; [done|]. by apply (final_shortest _ _ _ _ d f).
    + intros Hno.
      destruct (getitem_total _ _ _ _ (inv_shape Hinv) Hp) as [[e| |] Hv]; auto.
      destruct (inv_fin Hinv p e Hp Hv) as [_ Hreach]. by destruct (Hno e).
    + intros Hin Hne. by apply (inv_nan Hinv).
Qed.

Lemma field_is_shortest_distance_witness :
  in_bounds 3 3 (2, 2) ∧ Forall (in_bounds 3 3) [(1, 1); (2, 2)] ∧
  ∃ f, compute_field 10 [(1, 1); (2, 2)] (2, 2) 3 3 = Ok f ∧
       getitem f (1, 1) = Ok NaN.
Proof.
  assert (Hd : in_bounds 3 3 (2, 2)) by (unfold in_bounds; simpl; lia).
  assert (Hobs : Forall (in_bounds 3 3) [(1, 1); (2, 2)])
    by (repeat constructor; simpl; lia).
  split; [exact Hd|]. split; [exact Hobs|].
  destruct (field_is_shortest_distance 3 3 [(1, 1); (2, 2)] (2, 2) Hd Hobs)
    as (f & Hrun & _ & Hcells).
  exists f. split; [exact Hrun|].
  destruct (Hcells (1, 1)) as (_ & _ & Hblocked);
    [unfold in_bounds; simpl; lia|].
  apply Hblocked; [|done]. apply elem_of_cons. by left.
Defined.

(** C4. For a grid [R] x [C], obstacles inside the grid and a
    destination inside the grid, whether or not the destination is itself
    listed as an obstacle, the array the expansion ends with, which is the
    array every run of [grassfire_algorithm] returns, holds [0] at the
    destination. *)
Theorem destination_is_zero R C obstacles dest :
  in_bounds R C dest → Forall (in_bounds R C) obstacles →
  ∃ f, compute_field (S (Z.to_nat (R * C))) obstacles dest R C = Ok f ∧
       (∀ fuel start path f',
          grassfire_algorithm fuel obstacles start dest R C = Ok (path, f') →
          f' = f) ∧
       getitem f dest = Ok (Fin 0).
Proof.
  intros Hd Hobs.
  destruct (field_of_run R C obstacles dest Hd Hobs) as (f & Hrun & [d Hinv] & Hdet).
  exists f. split_and!; [done| |by apply (inv_dest Hinv)].
  intros fuel start path f' [Hf _]%grassfire_algorithm_Ok. by eapply Hdet.
Qed.

Lemma destination_is_zero_witness :
  in_bounds 2 2 (1, 1) ∧ Forall (in_bounds 2 2) [(1, 1)] ∧
  ∃ f, compute_field 5 [(1, 1)] (1, 1) 2 2 = Ok f ∧
       getitem f (1, 1) = Ok (Fin 0).
Proof.
  assert (Hd : in_bounds 2 2 (1, 1)) by (unfold in_bounds; simpl; lia).
  assert (Hobs : Forall (in_bounds 2 2) [(1, 1)])
    by (repeat constructor; simpl; lia).
  split; [exact Hd|]. split; [exact Hobs|].
  destruct (destination_is_zero 2 2 [(1, 1)] (1, 1) Hd Hobs)
    as (f & Hrun & _ & Hzero).
  exists f. split; [exact Hrun|exact Hzero].
Defined.

(** C9. In the array the expansion ends with (the array every run of
    [grassfire_algorithm] returns) every finite entry is a non-negative
    integer, and every cell other than the destination that holds a finite
    entry [e] has an orthogonal neighbour inside the grid holding
    [e - 1]. *)
Theorem finite_entries_step_down R C obstacles dest :
  in_bounds R C dest → Forall (in_bounds R C) obstacles →
  ∃ f, compute_field (S (Z.to_nat (R * C))) obstacles dest R C = Ok f ∧
       (∀ fuel start path f',
          grassfire_algorithm fuel obstacles start dest R C = Ok (path, f') →
          f' = f) ∧
       ∀ p e, in_bounds R C p → getitem f p = Ok (Fin e) →
         0 ≤ e ∧
         (p ≠ dest →
          ∃ n, in_bounds R C n ∧ adjacent p n ∧ getitem f n = Ok (Fin (e - 1))).
Proof.
  intros Hd Hobs.
  destruct (field_of_run R C obstacles dest Hd Hobs) as (f & Hrun & [d Hinv] & Hdet).
  exists f. split_and!; [done| |].
  - intros fuel start path f' [Hf _]%grassfire_algorithm_Ok. by eapply Hdet.
  - intros p e Hp Hpe. split.
    + destruct (inv_fin Hinv p e Hp Hpe) as [? _]. lia.
    + intros Hne. by apply (inv_pred Hinv).
Qed.

Lemma finite_entries_step_down_witness :
  in_bounds 2 2 (1, 1) ∧ Forall (in_bounds 2 2) [(0, 1)] ∧
  ∃ f, compute_field 5 [(0, 1)] (1, 1) 2 2 = Ok f ∧
       ∀ e, getitem f (0, 0) = Ok (Fin e) → 0 ≤ e.
Proof.
  assert (Hd : in_bounds 2 2 (1, 1)) by (unfold in_bounds; simpl; lia).
  assert (Hobs : Forall (in_bounds 2 2) [(0, 1)])
    by (repeat constructor; simpl; lia).
  split; [exact Hd|]. split; [exact Hobs|].
  destruct (finite_entries_step_down 2 2 [(0, 1)] (1, 1) Hd Hobs)
    as (f & Hrun & _ & Hfin).
  exists f. split; [exact Hrun|].
  intros e He. apply (Hfin (0, 0) e); [unfold in_bounds; simpl; lia|exact He].
Defined.

(** C8. For a grid [R] x [C], obstacles inside the grid and a destination
    inside the grid:
    - no write of the expansion touches an entry that is not [Inf]
      (blocked or already finite), neither a single visit nor the run as a
      whole;
    - the queue only grows at its end, and the run ends with the queue
      empty, the cells that went through the queue, in order, being [enq]:
      no cell occurs in it twice;
    - there are at most [R * C] of them, and [R * C] passes of the loop
      are enough. *)
Theorem expansion_is_bounded R C obstacles dest :
  in_bounds R C dest → Forall (in_bounds R C) obstacles →
  (∀ h g q dir g' q',
     has_shape R C g → visit R C h (g, q) dir = Ok (g', q') →
     ∀ p v, in_bounds R C p → getitem g p = Ok v → v ≠ Inf →
            getitem g' p = Ok v) ∧
  (∀ h g q g' q',
     expand R C h (g, q) = Ok (g', q') → ∃ new, q' = q ++ new) ∧
  ∃ f0 f enq,
    init_field obstacles dest R C = Ok f0 ∧
    bfs_history (S (Z.to_nat (R * C))) R C f0 [dest] [] = Ok (f, enq) ∧
    compute_field (S (Z.to_nat (R * C))) obstacles dest R C = Ok f ∧
    (∀ p v, in_bounds R C p → getitem f0 p = Ok v → v ≠ Inf →
            getitem f p = Ok v) ∧
    NoDup enq ∧ Forall (in_bounds R C) enq ∧
    (length enq ≤ Z.to_nat (R * C))%nat.
Proof.
  intros Hd Hobs. split.
  { intros h g q dir g' q' Hs Hv.
    by destruct (visit_frame _ _ _ _ _ _ _ _ Hs Hv). }
  split; [intros h g q g' q'; apply expand_appends|].
  destruct (init_field_inside R C obstacles dest Hd Hobs) as (f0 & Hinit & Hs0 & Hv0).
  assert (Hh0 : hist_inv R C f0 [dest] []).
  { split_and!; [done|apply NoDup_singleton|]. apply Forall_singleton.
    split; [done|]. exists (Fin 0). split; [|done].
    by rewrite Hv0, decide_True. }
  assert (HRC : Z.to_nat (R * C) = (Z.to_nat R * Z.to_nat C)%nat).
  { destruct Hd. rewrite Z2Nat.inj_mul; lia. }
  destruct (bfs_history_terminates R C (S (Z.to_nat (R * C))) f0 [dest] [] Hh0)
    as (f & enq & Hhist & Hnd & Hin & Hlen); [simpl; lia|].
  assert (Hloop : bfs_loop (S (Z.to_nat (R * C))) R C f0 [dest] = Ok f).
  { by rewrite (bfs_history_field _ _ _ _ _ []), Hhist. }
  exists f0, f, enq. split_and!; [done..| | |done|done|lia].
  - unfold compute_field. by rewrite Hinit.
  - by eapply bfs_loop_frame.
Qed.

Lemma expansion_is_bounded_witness :
  in_bounds 2 3 (1, 2) ∧ Forall (in_bounds 2 3) [(0, 1)] ∧
  ∃ f0 f enq,
    bfs_history 7 2 3 f0 [(1, 2)] [] = Ok (f, enq) ∧
    compute_field 7 [(0, 1)] (1, 2) 2 3 = Ok f ∧
    NoDup enq ∧ (length enq ≤ 6)%nat.
Proof.
  assert (Hd : in_bounds 2 3 (1, 2)) by (unfold in_bounds; simpl; lia).
  assert (Hobs : Forall (in_bounds 2 3) [(0, 1)])
    by (repeat constructor; simpl; lia).
  split; [exact Hd|]. split; [exact Hobs|].
  destruct (expansion_is_bounded 2 3 [(0, 1)] (1, 2) Hd Hobs)
    as (_ & _ & f0 & f & enq & _ & Hhist & Hrun & _ & Hnd & _ & Hlen).
  exists f0, f, enq. split; [exact Hhist|].
  split; [exact Hrun|]. split; [exact Hnd|exact Hlen].
Defined.

(** * The walk: facts about single steps *)

Lemma py_min_from_elem f : ∀ rest best k x,
  py_min_from f best k rest = Ok x → x = best ∨ x ∈ rest.
Proof.
  intros rest. induction rest as [|y rest IH]; intros best k x; simpl.
  - intros [= <-]. by left.
  - intros Hrun. apply bind_Ok in Hrun as (ky & _ & Hrest).
    destruct (key_lt ky k); apply IH in Hrest as [->|Hin]; set_solver.
Qed.

Lemma py_min_elem f items x : py_min f items = Ok x → x ∈ items.
Proof.
  destruct items as [|y rest]; simpl; [done|].
  intros Hrun. apply bind_Ok in Hrun as (ky & _ & Hrest).
  apply py_min_from_elem in Hrest as [->|Hin]; set_solver.
Qed.

Lemma candidates_spec R C p q :
  q ∈ candidates R C p → adjacent p q ∧ in_bounds R C q.
Proof.
  unfold candidates. rewrite list_elem_of_filter, list_elem_of_fmap.
  intros [Hin (d & -> & Hd)]. split; [by apply adjacent_shift|].
  by apply in_grid_true.
Qed.

(** A step the walk takes leads to an orthogonal neighbour inside the
    grid whose entry does not compare [>=] to the current one. *)
Lemma walk_step_Some f R C cur next :
  walk_step f R C cur = Ok (Some next) →
  adjacent cur next ∧ in_bounds R C next ∧
  ∃ cv nv, getitem f cur = Ok cv ∧ getitem f next = Ok nv ∧ fge nv cv = false.
Proof.
  unfold walk_step. intros Hrun.
  apply bind_Ok in Hrun as (cv & Hcv & Hrun).
  apply bind_Ok in Hrun as (nx & Hmin & Hrun).
  apply bind_Ok in Hrun as (nv & Hnv & Hrun).
  destruct (fge nv cv) eqn:Hge; [done|]. injection Hrun as <-.
  apply py_min_elem, candidates_spec in Hmin as [Hadj Hin].
  split_and!; [done..|]. by exists cv, nv.
Qed.

Lemma fge_false_flt a b : fge a b = false → a ≠ NaN → b ≠ NaN → flt a b = true.
Proof.
  destruct a as [x| |], b as [y| |]; simpl; try done.
  intros H _ _. apply Z.leb_gt in H. by apply Z.ltb_lt.
Qed.

(** One turn of the [while] loop of the walk. *)
Lemma walk_loop_unfold fuel f R C dest cur acc next :
  cur ≠ dest → walk_step f R C cur = Ok (Some next) →
  walk_loop (S fuel) f R C dest cur acc
  = walk_loop fuel f R C dest next (acc ++ [cur]).
Proof.
  intros Hne Hstep. simpl. rewrite bool_decide_eq_false_2 by done.
  by rewrite Hstep.
Qed.

(** Whatever non-empty list the loop returns is the reversal of what had
    been collected followed by a descent to the destination. *)
Lemma walk_loop_descent f R C dest fuel : ∀ cur acc out,
  walk_loop fuel f R C dest cur acc = Ok out → out ≠ [] →
  ∃ cells, descent f R C dest cur cells ∧ out = rev (acc ++ cells).
Proof.
  induction fuel as [|fuel IH]; intros cur acc out; simpl; [done|].
  case_bool_decide as Hcur.
  - intros [= <-] _. subst cur. exists [dest]. split; [constructor|done].
  - intros Hrun Hne. apply bind_Ok in Hrun as (step & Hstep & Hrun).
    destruct step as [next|]; [|by simplify_eq].
    destruct (IH _ _ _ Hrun Hne) as (cells & Hdesc & ->).
    exists (cur :: cells). split; [by econstructor|].
    by rewrite <- (assoc_L (++)).
Qed.

Lemma descent_head f R C dest cur cells :
  descent f R C dest cur cells → head cells = Some cur.
Proof. by destruct 1. Qed.

Lemma descent_last f R C dest cur cells :
  descent f R C dest cur cells → last cells = Some dest.
Proof.
  induction 1 as [|cur next cells Hne Hstep Hdesc IH]; [done|].
  destruct cells; [by inversion Hdesc|]. done.
Qed.

Lemma descent_lookup f R C dest cur cells i x y :
  descent f R C dest cur cells →
  cells !! i = Some x → cells !! S i = Some y →
  walk_step f R C x = Ok (Some y).
Proof.
  intros Hdesc. revert i.
  induction Hdesc as [|cur next cells Hne Hstep Hdesc IH]; intros i.
  - by destruct i.
  - destruct i as [|i]; simpl.
    + intros [= <-] Hy. apply descent_head in Hdesc.
      rewrite head_lookup in Hdesc. congruence.
    + apply IH.
Qed.

Lemma rev_is_reverse {A} (l : list A) : rev l = reverse l.
Proof. unfold reverse. apply rev_alt. Qed.

(** A non-empty list returned by lines 69-83 is a reversed descent from
    the start. *)
Lemma reconstruct_descent fuel f start dest R C path :
  reconstruct fuel f start dest R C = Ok path → path ≠ [] →
  ∃ cells, descent f R C dest start cells ∧ path = reverse cells.
Proof.
  unfold reconstruct. intros Hrun Hne.
  apply bind_Ok in Hrun as (v & Hv & Hrun).
  destruct (negb (isinf v)); [|by simplify_eq].
  destruct (walk_loop_descent _ _ _ _ _ _ _ _ Hrun Hne) as (cells & Hdesc & ->).
  exists cells. split; [done|]. apply rev_is_reverse.
Qed.

(** * The returned path: the claims *)

(** C2, as the code has it.  Line 83 returns [path[::-1]], so a non-empty
    returned path runs from the destination to the start: its first
    element is the destination, its last element is the start,
    consecutive cells are orthogonal neighbours, and from one cell to the
    next in the returned order the entry of the array strictly increases
    whenever neither of the two entries is [NaN]; the entry at the
    destination is [0] (for a destination and obstacles inside the
    grid). *)
Theorem returned_path_runs_back_to_start
    fuel obstacles start dest R C path f :
  grassfire_algorithm fuel obstacles start dest R C = Ok (path, f) →
  path ≠ [] →
  head path = Some dest ∧ last path = Some start ∧
  (∀ i a b, path !! i = Some a → path !! S i = Some b →
     adjacent a b ∧
     ∀ va vb, getitem f a = Ok va → getitem f b = Ok vb →
              va ≠ NaN → vb ≠ NaN → flt va vb = true) ∧
  (in_bounds R C dest → Forall (in_bounds R C) obstacles →
   getitem f dest = Ok (Fin 0)).
Proof.
  intros [Hf Hp]%grassfire_algorithm_Ok Hne.
  destruct (reconstruct_descent _ _ _ _ _ _ _ Hp Hne) as (cells & Hdesc & ->).
  split_and!.
  - rewrite head_reverse. by eapply descent_last.
  - rewrite last_reverse. by eapply descent_head.
  - intros i a b Ha Hb.
    apply reverse_lookup_Some in Ha as [Ha Hi].
    apply reverse_lookup_Some in Hb as [Hb Hi'].
    replace (length cells - S i)%nat with (S (length cells - S (S i)))%nat
      in Ha by lia.
    pose proof (descent_lookup _ _ _ _ _ _ _ _ _ Hdesc Hb Ha) as Hstep.
    apply walk_step_Some in Hstep as (Hadj & _ & cv & nv & Hcv & Hnv & Hge).
    split; [by apply adjacent_sym|].
    intros va vb Hva Hvb Hna Hnb.
    assert (va = nv) as -> by congruence.
    assert (vb = cv) as -> by congruence.
    by apply fge_false_flt.
  - intros Hd Hobs.
    destruct (field_of_run R C obstacles dest Hd Hobs) as (f1 & _ & [d Hinv] & Hdet).
    rewrite (Hdet _ _ Hf). by apply (inv_dest Hinv).
Qed.

Lemma returned_path_runs_back_to_start_witness :
  ∃ path f,
    grassfire_algorithm 10 [(0, 2)] (0, 0) (2, 2) 3 3 = Ok (path, f) ∧
    path ≠ [] ∧ head path = Some (2, 2) ∧ last path = Some (0, 0).
Proof.
  eexists _, _. split; [vm_compute; reflexivity|].
  split; [discriminate|].
  pose proof (returned_path_runs_back_to_start 10 [(0, 2)] (0, 0) (2, 2) 3 3
                _ _ ltac:(vm_compute; reflexivity) ltac:(discriminate))
    as (Hhead & Hlast & _).
  split; [exact Hhead|exact Hlast].
Defined.

(** C2 as stated fails: without any obstacle, from start (0,3) to
    destination (7,6) on the 8 x 8 grid, the returned path begins with
    the destination and ends with the start. *)
Lemma returned_path_order_counterexample :
  ∃ path f,
    grassfire_algorithm 65 [] (0, 3) (7, 6) 8 8 = Ok (path, f) ∧
    path ≠ [] ∧
    head path = Some (7, 6) ∧ head path ≠ Some (0, 3) ∧
    last path = Some (0, 3) ∧ last path ≠ Some (7, 6).
Proof.
  eexists _, _. split; [vm_compute; reflexivity|].
  split_and!; done.
Qed.

(** C10. For a grid [R] x [C], obstacles inside the grid and a cell
    inside the grid taken both as start and as destination, whether or not
    that cell is listed as an obstacle, [grassfire_algorithm] returns the
    path made of that one cell (with any fuel above [R * C]). *)
Theorem start_equal_to_destination R C obstacles dest :
  in_bounds R C dest → Forall (in_bounds R C) obstacles →
  ∃ f, ∀ fuel, (Z.to_nat (R * C) < fuel)%nat →
    grassfire_algorithm fuel obstacles dest dest R C = Ok ([dest], f).
Proof.
  intros Hd Hobs.
  destruct (field_of_run R C obstacles dest Hd Hobs) as (f & Hrun & [d Hinv] & _).
  exists f. intros fuel Hfuel. apply grassfire_algorithm_Ok. split.
  - apply (compute_field_more_fuel (S (Z.to_nat (R * C)))); [done|lia].
  - unfold reconstruct. destruct (inv_dest Hinv) as [_ ->]. simpl.
    destruct fuel as [|fuel]; [lia|]. simpl.
    by rewrite bool_decide_eq_true_2.
Qed.

Lemma start_equal_to_destination_witness :
  in_bounds 2 2 (0, 1) ∧ Forall (in_bounds 2 2) [(0, 1); (1, 1)] ∧
  ∃ f, grassfire_algorithm 5 [(0, 1); (1, 1)] (0, 1) (0, 1) 2 2
       = Ok ([(0, 1)], f).
Proof.
  assert (Hd : in_bounds 2 2 (0, 1)) by (unfold in_bounds; simpl; lia).
  assert (Hobs : Forall (in_bounds 2 2) [(0, 1); (1, 1)])
    by (repeat constructor; simpl; lia).
  split; [exact Hd|]. split; [exact Hobs|].
  destruct (start_equal_to_destination 2 2 [(0, 1); (1, 1)] (0, 1) Hd Hobs)
    as (f & Hrun).
  exists f. apply Hrun. simpl. lia.
Defined.

(** * The choice of [min] among entries that are not [NaN] *)

Lemma key_lt_trans a b c :
  a.1.1 ≠ NaN → b.1.1 ≠ NaN → c.1.1 ≠ NaN →
  key_lt a b = true → key_lt b c = true → key_lt a c = true.
Proof.
  destruct a as [[[x| |] r1] c1], b as [[[y| |] r2] c2], c as [[[z| |] r3] c3];
    simpl; intros ? ? ?; try done;
    repeat (case_bool_decide || case_match); simpl;
    rewrite ?Z.eqb_eq, ?Z.eqb_neq, ?Z.ltb_lt, ?Z.ltb_ge in *;
    try done; try lia.
Qed.

Lemma key_lt_total a b :
  a.1.1 ≠ NaN → b.1.1 ≠ NaN → a ≠ b →
  key_lt a b = false → key_lt b a = true.
Proof.
  destruct a as [[[x| |] r1] c1], b as [[[y| |] r2] c2];
    simpl; intros ? ? Hne; try done;
    repeat (case_bool_decide || case_match); simpl;
    rewrite ?Z.eqb_eq, ?Z.eqb_neq, ?Z.ltb_lt, ?Z.ltb_ge in *;
    try done; try lia; try (destruct Hne; repeat f_equal; lia).
Qed.

Lemma sort_key_Ok f p k :
  sort_key f p = Ok k ↔ ∃ v, getitem f p = Ok v ∧ k = (v, - p.1, - p.2).
Proof.
  unfold sort_key. rewrite bind_Ok. split.
  - intros (v & Hv & [= <-]). eauto.
  - intros (v & Hv & ->). eauto.
Qed.

Lemma sort_key_inj f p q k : sort_key f p = Ok k → sort_key f q = Ok k → p = q.
Proof.
  rewrite !sort_key_Ok. intros (v & _ & ->) (w & _ & [= _ Hr Hc]).
  destruct p, q; simpl in *. f_equal; lia.
Qed.

Lemma py_min_from_least f (seen : cell → Prop) : ∀ rest best kb x,
  sort_key f best = Ok kb → kb.1.1 ≠ NaN →
  (∀ y, y ∈ rest → ∃ v, getitem f y = Ok v ∧ v ≠ NaN) →
  (∀ y ky, seen y → sort_key f y = Ok ky → y = best ∨ key_lt kb ky = true) →
  py_min_from f best kb rest = Ok x →
  ∃ kx, sort_key f x = Ok kx ∧
        ∀ y ky, seen y ∨ y ∈ rest → sort_key f y = Ok ky →
                y = x ∨ key_lt kx ky = true.
Proof.
  intros rest. revert seen.
  induction rest as [|z rest IH]; intros seen best kb x Hkb Hnan Hrest Hseen; simpl.
  - intros [= <-]. exists kb. split; [done|].
    intros y ky [Hy|Hy%elem_of_nil] Hky; [|done]. by apply Hseen.
  - intros Hrun. apply bind_Ok in Hrun as (kz & Hkz & Hrun).
    assert (Hznan : kz.1.1 ≠ NaN).
    { destruct (Hrest z) as (v & Hv & Hne); [set_solver|].
      apply sort_key_Ok in Hkz as (w & Hw & ->). simpl. congruence. }
    assert (Hrest' : ∀ y, y ∈ rest → ∃ v, getitem f y = Ok v ∧ v ≠ NaN).
    { intros y Hy. apply Hrest. set_solver. }
    destruct (key_lt kz kb) eqn:Hlt.
    + destruct (IH (λ y, seen y ∨ y = z) z kz x Hkz Hznan Hrest') as (kx & Hkx & Hleast);
        [|done|].
      { intros y ky [Hy| ->] Hky; [|by left]. right.
        destruct (Hseen y ky Hy Hky) as [->|Hlt'].
        - by assert (ky = kb) as -> by congruence.
        - apply key_lt_trans with kb; [done..| |done|done].
          apply sort_key_Ok in Hky as (w & Hw & ->). simpl.
          intros ->. destruct kb as [[[?| |] ?] ?]; simpl in Hlt'; done. }
      exists kx. split; [done|]. intros y ky Hy Hky.
      apply Hleast; [|done]. set_solver.
    + destruct (IH (λ y, seen y ∨ y = z) best kb x Hkb Hnan Hrest') as (kx & Hkx & Hleast);
        [|done|].
      { intros y ky [Hy| ->] Hky; [by apply Hseen|].
        assert (ky = kz) as -> by congruence.
        destruct (decide (kz = kb)) as [->|Hne].
        - left. by eapply sort_key_inj.
        - right. by apply key_lt_total. }
      exists kx. split; [done|]. intros y ky Hy Hky.
      apply Hleast; [|done]. set_solver.
Qed.

(** When none of the items holds [NaN], [min] returns the item with the
    least key: least entry, then higher row, then higher column. *)
Lemma py_min_least f items x :
  (∀ y, y ∈ items → ∃ v, getitem f y = Ok v ∧ v ≠ NaN) →
  py_min f items = Ok x →
  x ∈ items ∧
  ∃ kx, sort_key f x = Ok kx ∧
        ∀ y ky, y ∈ items → sort_key f y = Ok ky →
                y = x ∨ key_lt kx ky = true.
Proof.
  intros Hitems Hrun. split; [by eapply py_min_elem|].
  destruct items as [|z rest]; simpl in Hrun; [done|].
  apply bind_Ok in Hrun as (kz & Hkz & Hrun).
  destruct (py_min_from_least f (λ y, y = z) rest z kz x Hkz) as (kx & Hkx & Hleast);
    [| |by intros y ky -> _; left|done|].
  - destruct (Hitems z) as (v & Hv & Hne); [set_solver|].
    apply sort_key_Ok in Hkz as (w & Hw & ->). simpl. congruence.
  - intros y Hy. apply Hitems. set_solver.
  - exists kx. split; [done|]. intros y ky Hy Hky.
    apply Hleast; [|done]. set_solver.
Qed.

(** An unreached start does give the empty path. *)
Lemma reconstruct_unreached fuel f start dest R C :
  getitem f start = Ok Inf → reconstruct fuel f start dest R C = Ok [].
Proof. intros Hv. unfold reconstruct. by rewrite Hv. Qed.

Lemma py_min_from_total f : ∀ rest best kb,
  (∀ y, y ∈ rest → ∃ v, getitem f y = Ok v) →
  ∃ x, py_min_from f best kb rest = Ok x.
Proof.
  intros rest. induction rest as [|z rest IH]; intros best kb Hrest; simpl.
  - by eexists.
  - destruct (Hrest z) as [v Hv]; [set_solver|].
    unfold sort_key. rewrite Hv. simpl.
    case_match; apply IH; intros y Hy; apply Hrest; set_solver.
Qed.

Lemma candidates_complete R C p q :
  adjacent p q → in_bounds R C q → q ∈ candidates R C p.
Proof.
  intros Hadj Hq. destruct (adjacent_is_shift _ _ Hadj) as (d & Hd & ->).
  unfold candidates. apply list_elem_of_filter. split; [by apply in_grid_true|].
  apply list_elem_of_fmap. eauto.
Qed.

(** * The walk over an array without [NaN] entries *)

Section walk_without_nan.
Variables (R C : Z) (obstacles : list cell) (dest : cell) (d : Z) (f : field).
Hypothesis final : bfs_inv R C obstacles dest d f [] None.
Hypothesis no_nan : ∀ p, in_bounds R C p → getitem f p ≠ Ok NaN.

(** From a cell holding [e > 0] the walk moves to a neighbour holding
    [e - 1]. *)
Lemma walk_step_down cur e :
  in_bounds R C cur → cur ≠ dest → getitem f cur = Ok (Fin e) →
  ∃ next, walk_step f R C cur = Ok (Some next) ∧
          in_bounds R C next ∧ getitem f next = Ok (Fin (e - 1)).
Proof.
  intros Hcur Hne Hval.
  destruct (inv_pred final cur e Hcur Hne Hval) as (n0 & Hn0 & Hadj0 & Hv0).
  assert (Hcands : ∀ y, y ∈ candidates R C cur →
                        ∃ v, getitem f y = Ok v ∧ v ≠ NaN).
  { intros y [_ Hy]%candidates_spec.
    destruct (getitem_total _ _ _ _ (inv_shape final) Hy) as [v Hv].
    exists v. split; [done|]. intros ->. by apply (no_nan y). }
  assert (Hn0c : n0 ∈ candidates R C cur) by (by apply candidates_complete).
  assert (∃ x, py_min f (candidates R C cur) = Ok x) as [x Hmin].
  { destruct (candidates R C cur) as [|z rest]; [by apply elem_of_nil in Hn0c|].
    simpl. destruct (Hcands z) as (v & Hv & _); [set_solver|].
    unfold sort_key. rewrite Hv. simpl. apply py_min_from_total.
    intros y Hy. destruct (Hcands y) as (w & Hw & _); [set_solver|]. eauto. }
  destruct (py_min_least _ _ _ Hcands Hmin) as (Hx & kx & Hkx & Hleast).
  apply candidates_spec in Hx as [Hadjx Hxin].
  apply sort_key_Ok in Hkx as (vx & Hvx & ->).
  assert (Hle : ∃ ex, vx = Fin ex ∧ ex ≤ e - 1) .
  { destruct (Hleast n0 (Fin (e - 1), - n0.1, - n0.2) Hn0c) as [->|Hlt].
    - apply sort_key_Ok. eauto.
    - exists (e - 1). split; [congruence|lia].
    - destruct vx as [ex| |]; simpl in Hlt; [|done..].
      exists ex. split; [done|].
      destruct (ex =? e - 1) eqn:Heq; [apply Z.eqb_eq in Heq; lia|].
      apply Z.ltb_lt in Hlt. lia. }
  destruct Hle as (ex & -> & Hle).
  pose proof (inv_lip final x cur ex e Hxin Hcur (adjacent_sym _ _ Hadjx) Hvx Hval).
  assert (ex = e - 1) as -> by lia.
  exists x. split_and!; [|done..].
  unfold walk_step. rewrite Hval. simpl. rewrite Hmin. simpl. rewrite Hvx. simpl.
  by rewrite (proj2 (Z.leb_gt e (e - 1))) by lia.
Qed.

(** From a cell holding [e] the walk reaches the destination in [e] steps. *)
Lemma walk_loop_down (n : nat) : ∀ cur acc fuel,
  in_bounds R C cur → getitem f cur = Ok (Fin (Z.of_nat n)) →
  (n < fuel)%nat →
  ∃ cells, walk_loop fuel f R C dest cur acc = Ok (rev (acc ++ cells)) ∧
           length cells = S n ∧ descent f R C dest cur cells.
Proof.
  induction n as [|n IH]; intros cur acc fuel Hcur Hval Hfuel;
    (destruct fuel as [|fuel]; [lia|]).
  - assert (cur = dest) as ->.
    { destruct (decide (cur = dest)) as [|Hne]; [done|].
      destruct (inv_pred final cur 0 Hcur Hne Hval) as (m & Hm & _ & Hmv).
      destruct (inv_fin final m _ Hm Hmv). lia. }
    exists [dest]. simpl. rewrite bool_decide_eq_true_2 by done.
    split_and!; [done..|constructor].
  - assert (Hne : cur ≠ dest).
    { intros ->. destruct (inv_dest final) as [_ Hd0]. rewrite Hd0 in Hval.
      injection Hval. lia. }
    destruct (walk_step_down cur _ Hcur Hne Hval) as (next & Hstep & Hnext & Hnv).
    replace (Z.of_nat (S n) - 1) with (Z.of_nat n) in Hnv by lia.
    destruct (IH next (acc ++ [cur]) fuel Hnext Hnv) as (cells & Hrun & Hlen & Hdesc);
      [lia|].
    exists (cur :: cells). rewrite (walk_loop_unfold _ _ _ _ _ _ _ next) by done.
    rewrite Hrun, <- (assoc_L (++)). simpl.
    split_and!; [done|by rewrite Hlen|by econstructor].
Qed.

End walk_without_nan.

(** On a grid where no cell other than the destination is an obstacle,
    the walk ends for every start inside the grid, and the path returned
    from a start holding [e] has [e + 1] cells. *)
Lemma path_length_without_obstacles R C obstacles start dest :
  in_bounds R C dest → in_bounds R C start →
  (∀ o, o ∈ obstacles → o = dest) →
  ∃ f, compute_field (S (Z.to_nat (R * C))) obstacles dest R C = Ok f ∧
       ((getitem f start = Ok Inf ∧
         ∀ fuel, (Z.to_nat (R * C) < fuel)%nat →
           grassfire_algorithm fuel obstacles start dest R C = Ok ([], f)) ∨
        (∃ n : nat, getitem f start = Ok (Fin (Z.of_nat n)) ∧
         ∀ fuel, (Z.to_nat (R * C) < fuel)%nat → (n < fuel)%nat →
           ∃ path, grassfire_algorithm fuel obstacles start dest R C
                   = Ok (path, f) ∧ length path = S n)).
Proof.
  intros Hd Hs Hobs.
  assert (Hobs' : Forall (in_bounds R C) obstacles).
  { apply Forall_forall. intros o Ho. by rewrite (Hobs o Ho). }
  destruct (field_of_run R C obstacles dest Hd Hobs') as (f & Hrun & [d Hinv] & _).
  exists f. split; [done|].
  assert (Hnonan : ∀ p, in_bounds R C p → getitem f p ≠ Ok NaN).
  { intros p Hp Hnan. apply (inv_nan Hinv) in Hnan as [Hin Hne]; [|done].
    by apply Hne, Hobs. }
  assert (Hfield : ∀ fuel, (Z.to_nat (R * C) < fuel)%nat →
                           compute_field fuel obstacles dest R C = Ok f).
  { intros fuel Hfuel.
    apply (compute_field_more_fuel (S (Z.to_nat (R * C)))); [done|lia]. }
  destruct (getitem_total _ _ _ _ (inv_shape Hinv) Hs) as [[e| |] Hv].
  - right. destruct (inv_fin Hinv start e Hs Hv) as [He _].
    exists (Z.to_nat e). rewrite Z2Nat.id by lia. split; [done|].
    intros fuel Hfuel Hn.
    destruct (walk_loop_down R C obstacles dest d f Hinv Hnonan (Z.to_nat e)
                start [] fuel Hs) as (cells & Hwalk & Hlen & _);
      [by rewrite Z2Nat.id by lia|done|].
    exists (rev cells). split; [|by rewrite length_rev].
    apply grassfire_algorithm_Ok. split; [by apply Hfield|].
    unfold reconstruct. rewrite Hv. simpl. by rewrite Hwalk.
  - left. split; [done|]. intros fuel Hfuel.
    apply grassfire_algorithm_Ok. split; [by apply Hfield|].
    by apply reconstruct_unreached.
  - by destruct (Hnonan start Hs).
Qed.

(** * Walks that meet a [NaN] entry *)

(** Two cells that send the walk to each other keep it going for ever. *)
Lemma walk_loop_cycle f R C dest a b :
  a ≠ dest → b ≠ dest →
  walk_step f R C a = Ok (Some b) → walk_step f R C b = Ok (Some a) →
  ∀ fuel acc,
    walk_loop fuel f R C dest a acc = OutOfFuel ∧
    walk_loop fuel f R C dest b acc = OutOfFuel.
Proof.
  intros Ha Hb Hab Hba fuel.
  induction fuel as [|fuel IH]; intros acc; [done|].
  rewrite (walk_loop_unfold _ _ _ _ _ a _ b) by done.
  rewrite (walk_loop_unfold _ _ _ _ _ b _ a) by done.
  split; apply IH.
Qed.

Lemma walk_loop_enters_cycle f R C dest cur next :
  cur ≠ dest → walk_step f R C cur = Ok (Some next) →
  (∀ fuel acc, walk_loop fuel f R C dest next acc = OutOfFuel) →
  ∀ fuel acc, walk_loop fuel f R C dest cur acc = OutOfFuel.
Proof.
  intros Hne Hstep Hnext [|fuel] acc; [done|].
  by rewrite (walk_loop_unfold _ _ _ _ _ cur _ next).
Qed.

(** If the walk from the start never ends, no amount of fuel makes
    [grassfire_algorithm] return. *)
Lemma grassfire_algorithm_never_returns n obstacles start dest R C f v :
  compute_field n obstacles dest R C = Ok f →
  getitem f start = Ok v → isinf v = false →
  (∀ fuel acc, walk_loop fuel f R C dest start acc = OutOfFuel) →
  ∀ fuel, grassfire_algorithm fuel obstacles start dest R C = OutOfFuel.
Proof.
  intros Hf Hv Hinf Hloop fuel. unfold grassfire_algorithm.
  destruct (compute_field_fuel n fuel obstacles dest R C) as [Heq|Heq];
    [by rewrite Hf| |by rewrite Heq].
  rewrite Heq, Hf. cbv [mbind result_bind]. unfold reconstruct.
  rewrite Hv. cbv [mbind result_bind]. rewrite Hinf. simpl negb. cbv iota.
  by rewrite Hloop.
Qed.

(** C3, where the code departs from it.  On the 8 x 8 grid with the single
    obstacle (0,3), start (0,3) and destination (7,6), the entry at the
    start is [NaN]; line 70 tests [np.isinf] only, the walk is entered,
    moves to (1,3) and from there back to the obstacle, for ever: no
    amount of fuel makes the function return.  On the 1 x 3 grid with
    obstacle and start (0,2) and destination (0,0) it returns the
    three-cell path through the obstacle. *)
Theorem start_inside_obstacle_is_walked :
  (∃ f, compute_field 65 [(0, 3)] (7, 6) 8 8 = Ok f ∧
        getitem f (0, 3) = Ok NaN ∧
        walk_step f 8 8 (0, 3) = Ok (Some (1, 3)) ∧
        walk_step f 8 8 (1, 3) = Ok (Some (0, 3))) ∧
  (∀ fuel, grassfire_algorithm fuel [(0, 3)] (0, 3) (7, 6) 8 8 = OutOfFuel) ∧
  (∃ f, grassfire_algorithm 4 [(0, 2)] (0, 2) (0, 0) 1 3
        = Ok ([(0, 0); (0, 1); (0, 2)], f) ∧
        getitem f (0, 2) = Ok NaN).
Proof.
  assert (Hrun : ∃ f, compute_field 65 [(0, 3)] (7, 6) 8 8 = Ok f ∧
                      getitem f (0, 3) = Ok NaN ∧
                      walk_step f 8 8 (0, 3) = Ok (Some (1, 3)) ∧
                      walk_step f 8 8 (1, 3) = Ok (Some (0, 3))).
  { eexists. split; [vm_compute; reflexivity|].
    split_and!; vm_compute; reflexivity. }
  split; [exact Hrun|]. split.
  - destruct Hrun as (f & Hf & Hnan & H1 & H2).
    apply (grassfire_algorithm_never_returns 65 _ _ _ _ _ f NaN);
      [done..|].
    intros fuel acc.
    by destruct (walk_loop_cycle f 8 8 (7, 6) (0, 3) (1, 3)
                   ltac:(done) ltac:(done) H1 H2 fuel acc).
  - eexists. split; vm_compute; reflexivity.
Qed.

(** C6, where the code departs from it.  On the 8 x 8 grid with the single
    obstacle (1,3), start (0,3) and destination (7,6): the start holds 10;
    the neighbour chosen there is the obstacle, whose entry [NaN] is not
    less than 10, yet line 80 does not stop the walk; from (1,3) the walk
    goes to (2,3) and from (2,3) back to (1,3), for ever: no amount of
    fuel makes the function return. *)
Theorem walk_can_loop_forever :
  (∃ f, compute_field 65 [(1, 3)] (7, 6) 8 8 = Ok f ∧
        getitem f (0, 3) = Ok (Fin 10) ∧
        getitem f (1, 3) = Ok NaN ∧
        flt NaN (Fin 10) = false ∧
        walk_step f 8 8 (0, 3) = Ok (Some (1, 3)) ∧
        walk_step f 8 8 (1, 3) = Ok (Some (2, 3)) ∧
        walk_step f 8 8 (2, 3) = Ok (Some (1, 3))) ∧
  ∀ fuel, grassfire_algorithm fuel [(1, 3)] (0, 3) (7, 6) 8 8 = OutOfFuel.
Proof.
  assert (Hrun : ∃ f, compute_field 65 [(1, 3)] (7, 6) 8 8 = Ok f ∧
                      getitem f (0, 3) = Ok (Fin 10) ∧
                      getitem f (1, 3) = Ok NaN ∧
                      flt NaN (Fin 10) = false ∧
                      walk_step f 8 8 (0, 3) = Ok (Some (1, 3)) ∧
                      walk_step f 8 8 (1, 3) = Ok (Some (2, 3)) ∧
                      walk_step f 8 8 (2, 3) = Ok (Some (1, 3))).
  { eexists. split; [vm_compute; reflexivity|].
    split_and!; vm_compute; reflexivity. }
  split; [exact Hrun|].
  destruct Hrun as (f & Hf & Hstart & _ & _ & H0 & H1 & H2).
  apply (grassfire_algorithm_never_returns 65 _ _ _ _ _ f (Fin 10));
    [done..|].
  apply (walk_loop_enters_cycle f 8 8 (7, 6) (0, 3) (1, 3)); [done..|].
  intros fuel acc.
  by destruct (walk_loop_cycle f 8 8 (7, 6) (1, 3) (2, 3)
                 ltac:(done) ltac:(done) H1 H2 fuel acc).
Qed.

(** C7, where the code departs from it.  In the array of the same run,
    the neighbours of (0,3) inside the grid are (1,3), (0,2) and (0,4),
    holding [NaN], 11 and 9; [min] keeps its first item (1,3), since no
    key compares [<] to a key that starts with [NaN], although (0,4)
    holds the least value. *)
Theorem min_keeps_leading_nan :
  ∃ f, compute_field 65 [(1, 3)] (7, 6) 8 8 = Ok f ∧
       candidates 8 8 (0, 3) = [(1, 3); (0, 2); (0, 4)] ∧
       getitem f (1, 3) = Ok NaN ∧
       getitem f (0, 2) = Ok (Fin 11) ∧
       getitem f (0, 4) = Ok (Fin 9) ∧
       py_min f (candidates 8 8 (0, 3)) = Ok (1, 3).
Proof.
  eexists. split; [vm_compute; reflexivity|].
  split_and!; vm_compute; reflexivity.
Qed.

(** C5, where the code departs from it.  On the 8 x 8 grid with obstacles
    (1,3) and (2,3), start (0,3) and destination (7,6), the returned path
    has the 11 cells that [field[start] + 1] promises, but its second to
    last cell is the obstacle (1,3).  With the single obstacle (1,0),
    start (0,0) and destination (0,7), the start holds 7 and the returned
    path, through the obstacle, has 10 cells. *)
Theorem returned_path_can_cross_obstacle :
  (∃ path f,
     grassfire_algorithm 65 [(1, 3); (2, 3)] (0, 3) (7, 6) 8 8 = Ok (path, f) ∧
     getitem f (0, 3) = Ok (Fin 10) ∧ length path = 11%nat ∧
     path !! 9%nat = Some (1, 3) ∧ getitem f (1, 3) = Ok NaN) ∧
  (∃ path f,
     grassfire_algorithm 65 [(1, 0)] (0, 0) (0, 7) 8 8 = Ok (path, f) ∧
     getitem f (0, 0) = Ok (Fin 7) ∧ length path = 10%nat ∧
     path !! 8%nat = Some (1, 0) ∧ getitem f (1, 0) = Ok NaN).
Proof.
  split.
  - eexists _, _. split; [vm_compute; reflexivity|].
    split_and!; vm_compute; reflexivity.
  - eexists _, _. split; [vm_compute; reflexivity|].
    split_and!; vm_compute; reflexivity.
Qed.

(** The scenario of C5 without obstacles: 8 x 8, start (0,3), destination
    (7,6); the start holds 10 and the returned path has 11 cells. *)
Lemma scenario_without_obstacles :
  ∃ path f,
    grassfire_algorithm 65 [] (0, 3) (7, 6) 8 8 = Ok (path, f) ∧
    getitem f (0, 3) = Ok (Fin 10) ∧ length path = 11%nat.
Proof.
  eexists _, _. split; [vm_compute; reflexivity|].
  split; vm_compute; reflexivity.
Qed.

(** * Further properties of [grassfire_algorithm] *)

(** ** The obstacles as a set *)

(** Two arrays of the same shape with the same entries are equal. *)
Lemma field_ext R C (f g : field) :
  has_shape R C f → has_shape R C g →
  (∀ p, in_bounds R C p → getitem f p = getitem g p) → f = g.
Proof.
  intros Hf Hg Hsame. apply list_eq. intros i.
  destruct (decide (i < Z.to_nat R)%nat) as [Hi|Hi].
  - assert (Hrow : ∀ j, (j < Z.to_nat C)%nat →
                        in_bounds R C (Z.of_nat i, Z.of_nat j))
      by (intros j Hj; unfold in_bounds; simpl; lia).
    destruct (lookup_lt_is_Some_2 f i) as [rf Hrf]; [destruct Hf; lia|].
    destruct (lookup_lt_is_Some_2 g i) as [rg Hrg]; [destruct Hg; lia|].
    rewrite Hrf, Hrg. f_equal. apply list_eq. intros j.
    pose proof (has_shape_row _ _ _ _ _ Hf Hrf) as Hlf.
    pose proof (has_shape_row _ _ _ _ _ Hg Hrg) as Hlg.
    destruct (decide (j < Z.to_nat C)%nat) as [Hj|Hj].
    + destruct (getitem_inside _ _ _ _ Hf (Hrow j Hj)) as (r1 & v1 & Hr1 & Hv1 & Hg1).
      destruct (getitem_inside _ _ _ _ Hg (Hrow j Hj)) as (r2 & v2 & Hr2 & Hv2 & Hg2).
      simpl in Hr1, Hv1, Hr2, Hv2. rewrite Nat2Z.id in Hr1, Hr2, Hv1, Hv2.
      rewrite (Hsame _ (Hrow j Hj)), Hg2 in Hg1. congruence.
    + rewrite !lookup_ge_None_2; [done|lia..].
  - destruct Hf, Hg. rewrite !lookup_ge_None_2; [done|lia..].
Qed.

(** X1. Only the set of obstacle cells matters: two obstacle lists with
    the same elements (in any order, with any repetitions), all inside
    the grid, give the same outcome for every start and every fuel. *)
Theorem obstacle_order_is_irrelevant R C obstacles obstacles' start dest fuel :
  in_bounds R C dest → Forall (in_bounds R C) obstacles →
  (∀ o, o ∈ obstacles ↔ o ∈ obstacles') →
  grassfire_algorithm fuel obstacles start dest R C
  = grassfire_algorithm fuel obstacles' start dest R C.
Proof.
  intros Hd Hobs Hsame.
  assert (Hobs' : Forall (in_bounds R C) obstacles').
  { rewrite Forall_forall in Hobs. apply Forall_forall.
    intros o Ho. by apply Hobs, Hsame. }
  destruct (init_field_inside R C obstacles dest Hd Hobs) as (f & Hf & Hsf & Hvf).
  destruct (init_field_inside R C obstacles' dest Hd Hobs') as (g & Hg & Hsg & Hvg).
  assert (f = g) as <-.
  { apply (field_ext R C); [done..|]. intros p Hp.
    rewrite Hvf, Hvg by done. repeat case_decide; try done; naive_solver. }
  unfold grassfire_algorithm, compute_field. by rewrite Hf, Hg.
Qed.

Lemma obstacle_order_is_irrelevant_witness :
  grassfire_algorithm 10 [(1, 1); (0, 2)] (0, 0) (2, 2) 3 3
  = grassfire_algorithm 10 [(0, 2); (1, 1); (0, 2)] (0, 0) (2, 2) 3 3.
Proof.
  apply (obstacle_order_is_irrelevant 3 3).
  - unfold in_bounds; simpl; lia.
  - repeat constructor; simpl; lia.
  - intros o. rewrite !elem_of_cons, !elem_of_nil. tauto.
Defined.

(** ** Grids without obstacles *)

Lemma steps_from_manhattan obstacles R C dest p n :
  steps_from obstacles R C dest p n → manhattan p dest ≤ n.
Proof.
  induction 1 as [|p q n _ IH Hadj _ _].
  - unfold manhattan. lia.
  - unfold manhattan, adjacent in *. lia.
Qed.

(** A sequence of steps has the parity of the Manhattan distance. *)
Lemma steps_from_parity obstacles R C dest p n :
  steps_from obstacles R C dest p n → ∃ k, n = manhattan p dest + 2 * k.
Proof.
  induction 1 as [|p q n _ [k ->] Hadj _ _].
  - exists 0. unfold manhattan. lia.
  - assert (manhattan q dest = manhattan p dest + 1 ∨
            manhattan q dest = manhattan p dest - 1) as [->| ->]
      by (unfold manhattan, adjacent in *; lia).
    + exists k. lia.
    + exists (k + 1). lia.
Qed.

Lemma manhattan_reached obstacles R C dest (m : nat) : ∀ p,
  (∀ o, o ∈ obstacles → o = dest) →
  in_bounds R C dest → in_bounds R C p →
  manhattan p dest = Z.of_nat m →
  steps_from obstacles R C dest p (Z.of_nat m).
Proof.
  induction m as [|m IH]; intros p Hobs Hd Hp Hm.
  - assert (p = dest) as ->.
    { destruct p, dest. unfold manhattan in Hm. simpl in *. f_equal; lia. }
    constructor.
  - set (q := if bool_decide (p.1 < dest.1) then (p.1 + 1, p.2)
              else if bool_decide (dest.1 < p.1) then (p.1 - 1, p.2)
              else if bool_decide (p.2 < dest.2) then (p.1, p.2 + 1)
              else (p.1, p.2 - 1)).
    assert (Hq : in_bounds R C q ∧ adjacent q p ∧
                 manhattan q dest = Z.of_nat m).
    { unfold q, in_bounds, adjacent, manhattan in *.
      repeat case_bool_decide; simpl; lia. }
    destruct Hq as (Hq & Hadj & Hqm).
    replace (Z.of_nat (S m)) with (Z.of_nat m + 1) by lia.
    apply steps_next with q; [by apply IH|done..|].
    intros Hin. apply Hobs in Hin. subst p. unfold manhattan in Hm. lia.
Qed.

(** Without obstacles every cell is reached along a monotone staircase,
    and no sequence of steps is shorter than the Manhattan distance. *)
Lemma compute_field_manhattan R C obstacles dest :
  in_bounds R C dest → (∀ o, o ∈ obstacles → o = dest) →
  ∃ f, compute_field (S (Z.to_nat (R * C))) obstacles dest R C = Ok f ∧
       ∀ p, in_bounds R C p → getitem f p = Ok (Fin (manhattan p dest)).
Proof.
  intros Hd Hobs.
  assert (Hobs' : Forall (in_bounds R C) obstacles).
  { apply Forall_forall. intros o Ho. by rewrite (Hobs o Ho). }
  destruct (field_of_run R C obstacles dest Hd Hobs') as (f & Hrun & [d Hinv] & _).
  exists f. split; [done|]. intros p Hp.
  apply (final_shortest R C obstacles dest d f); [done..|].
  assert (Hm : 0 ≤ manhattan p dest) by (unfold manhattan; lia).
  split.
  - rewrite <- (Z2Nat.id _ Hm). apply manhattan_reached; [done..|lia].
  - intros m. apply steps_from_manhattan.
Qed.

(** X2. On a grid where no cell other than the destination is an
    obstacle, the expansion writes into every cell its Manhattan distance
    to the destination. *)
Theorem field_without_obstacles_is_manhattan R C obstacles dest :
  in_bounds R C dest → (∀ o, o ∈ obstacles → o = dest) →
  ∃ f, compute_field (S (Z.to_nat (R * C))) obstacles dest R C = Ok f ∧
       ∀ p, in_bounds R C p → getitem f p = Ok (Fin (manhattan p dest)).
Proof. apply compute_field_manhattan. Qed.

Lemma field_without_obstacles_is_manhattan_witness :
  ∃ f, compute_field 13 [] (2, 3) 3 4 = Ok f ∧
       getitem f (0, 0) = Ok (Fin 5).
Proof.
  destruct (field_without_obstacles_is_manhattan 3 4 [] (2, 3))
    as (f & Hrun & Hval).
  - unfold in_bounds; simpl; lia.
  - intros o Ho. by apply elem_of_nil in Ho.
  - exists f. split; [exact Hrun|].
    apply (Hval (0, 0)). unfold in_bounds; simpl; lia.
Defined.

(** X3. On a grid where no cell other than the destination is an
    obstacle, for every start inside the grid and any fuel above [R * C]
    the function returns, and the returned path has one cell more than the
    Manhattan distance between start and destination. *)
Theorem path_without_obstacles_is_manhattan R C obstacles start dest fuel :
  in_bounds R C dest → in_bounds R C start →
  (∀ o, o ∈ obstacles → o = dest) →
  (Z.to_nat (R * C) < fuel)%nat →
  ∃ path f,
    grassfire_algorithm fuel obstacles start dest R C = Ok (path, f) ∧
    Z.of_nat (length path) = manhattan start dest + 1.
Proof.
  intros Hd Hs Hobs Hfuel.
  assert (Hobs' : Forall (in_bounds R C) obstacles).
  { apply Forall_forall. intros o Ho. by rewrite (Hobs o Ho). }
  destruct (field_of_run R C obstacles dest Hd Hobs') as (f & Hrun & [d Hinv] & Hdet).
  destruct (compute_field_manhattan R C obstacles dest Hd Hobs)
    as (f' & Hrun' & Hval).
  assert (f' = f) as -> by (by eapply Hdet).
  assert (Hnonan : ∀ p, in_bounds R C p → getitem f p ≠ Ok NaN).
  { intros p Hp. by rewrite Hval. }
  assert (Hm : 0 ≤ manhattan start dest) by (unfold manhattan; lia).
  assert (Hmax : manhattan start dest < R * C).
  { destruct Hd, Hs. unfold manhattan. nia. }
  destruct (walk_loop_down R C obstacles dest d f Hinv Hnonan
              (Z.to_nat (manhattan start dest)) start [] fuel Hs)
    as (cells & Hwalk & Hlen & _).
  { rewrite Z2Nat.id by done. by apply Hval. }
  { lia. }
  exists (rev cells), f. split.
  - apply grassfire_algorithm_Ok. split.
    + apply (compute_field_more_fuel (S (Z.to_nat (R * C)))); [done|lia].
    + unfold reconstruct. rewrite (Hval start Hs). simpl. by rewrite Hwalk.
  - rewrite length_rev, Hlen. lia.
Qed.

Lemma path_without_obstacles_is_manhattan_witness :
  ∃ path f,
    grassfire_algorithm 65 [] (0, 3) (7, 6) 8 8 = Ok (path, f) ∧
    Z.of_nat (length path) = manhattan (0, 3) (7, 6) + 1.
Proof.
  apply (path_without_obstacles_is_manhattan 8 8).
  - unfold in_bounds; simpl; lia.
  - unfold in_bounds; simpl; lia.
  - intros o Ho. by apply elem_of_nil in Ho.
  - simpl. lia.
Defined.

(** ** Unreachable starts *)

(** X4. If the start is inside the grid, is not an obstacle, and no
    sequence of orthogonal steps over non-obstacle cells joins it to the
    destination, the function returns the empty path (with any fuel above
    [R * C]). *)
Theorem unreachable_start_gives_empty_path R C obstacles start dest fuel :
  in_bounds R C dest → Forall (in_bounds R C) obstacles →
  in_bounds R C start → start ∉ obstacles →
  (∀ n, ¬ steps_from obstacles R C dest start n) →
  (Z.to_nat (R * C) < fuel)%nat →
  ∃ f, grassfire_algorithm fuel obstacles start dest R C = Ok ([], f).
Proof.
  intros Hd Hobs Hs Hnot Hunreach Hfuel.
  destruct (field_of_run R C obstacles dest Hd Hobs) as (f & Hrun & [d Hinv] & _).
  exists f. apply grassfire_algorithm_Ok. split.
  - apply (compute_field_more_fuel (S (Z.to_nat (R * C)))); [done|lia].
  - apply reconstruct_unreached.
    destruct (getitem_total _ _ _ _ (inv_shape Hinv) Hs) as [[e| |] Hv].
    + destruct (inv_fin Hinv start e Hs Hv) as [_ Hreach].
      by destruct (Hunreach e).
    + done.
    + apply (inv_nan Hinv) in Hv as [Hin _]; done.
Qed.

(** A destination walled in on its four sides cannot be left. *)
Lemma walled_in_destination_unreachable R C obstacles dest p n :
  (∀ q, adjacent dest q → in_bounds R C q → q ∈ obstacles) →
  steps_from obstacles R C dest p n → p = dest.
Proof.
  intros Hwall. induction 1 as [|p q n Hreach -> Hadj Hq Hobs]; [done|].
  destruct Hobs. by apply Hwall.
Qed.

Lemma unreachable_start_gives_empty_path_witness :
  ∃ f, grassfire_algorithm 10 [(0, 1); (1, 0); (1, 2); (2, 1)] (0, 0) (1, 1) 3 3
       = Ok ([], f).
Proof.
  apply (unreachable_start_gives_empty_path 3 3).
  - unfold in_bounds; simpl; lia.
  - repeat constructor; simpl; lia.
  - unfold in_bounds; simpl; lia.
  - rewrite !elem_of_cons, elem_of_nil. intros H.
    repeat (destruct H as [H|H]; [discriminate H|]). exact H.
  - intros n Hn.
    apply (walled_in_destination_unreachable 3 3) in Hn; [discriminate Hn|].
    intros [r c]. unfold adjacent, in_bounds. simpl. intros Hadj Hin.
    rewrite !elem_of_cons, elem_of_nil.
    assert ((r = 0 ∧ c = 1) ∨ (r = 1 ∧ c = 0) ∨ (r = 1 ∧ c = 2) ∨
            (r = 2 ∧ c = 1)) as [[-> ->]|[[-> ->]|[[-> ->]|[-> ->]]]] by lia;
      tauto.
  - simpl. lia.
Defined.

(** ** The shape of the distance field *)

(** X5. In the array the expansion ends with, two orthogonal neighbours
    that both hold finite entries differ by exactly one, and no cell
    holding a finite entry has a neighbour inside the grid left at
    [Inf]. *)
Theorem neighbours_differ_by_one R C obstacles dest :
  in_bounds R C dest → Forall (in_bounds R C) obstacles →
  ∃ f, compute_field (S (Z.to_nat (R * C))) obstacles dest R C = Ok f ∧
       ∀ p q e, in_bounds R C p → in_bounds R C q → adjacent p q →
                getitem f p = Ok (Fin e) →
                getitem f q ≠ Ok Inf ∧
                ∀ e', getitem f q = Ok (Fin e') → e' = e + 1 ∨ e' = e - 1.
Proof.
  intros Hd Hobs.
  destruct (field_of_run R C obstacles dest Hd Hobs) as (f & Hrun & [d Hinv] & _).
  exists f. split; [done|]. intros p q e Hp Hq Hadj Hpe. split.
  - apply (inv_closed Hinv p e); [done..| |done|done|done].
    by intros ?%elem_of_nil.
  - intros e' Hqe.
    pose proof (inv_lip Hinv p q e e' Hp Hq Hadj Hpe Hqe) as H1.
    pose proof (inv_lip Hinv q p e' e Hq Hp (adjacent_sym _ _ Hadj) Hqe Hpe) as H2.
    destruct (inv_fin Hinv p e Hp Hpe) as [_ [k Hk]%steps_from_parity].
    destruct (inv_fin Hinv q e' Hq Hqe) as [_ [k' Hk']%steps_from_parity].
    unfold manhattan, adjacent in *. lia.
Qed.

Lemma neighbours_differ_by_one_witness :
  ∃ f, compute_field 10 [(1, 1)] (2, 2) 3 3 = Ok f ∧
       ∀ e e', getitem f (0, 0) = Ok (Fin e) → getitem f (0, 1) = Ok (Fin e') →
               e' = e + 1 ∨ e' = e - 1.
Proof.
  destruct (neighbours_differ_by_one 3 3 [(1, 1)] (2, 2)) as (f & Hrun & Hnb).
  - unfold in_bounds; simpl; lia.
  - repeat constructor; simpl; lia.
  - exists f. split; [exact Hrun|]. intros e e' He He'.
    destruct (Hnb (0, 0) (0, 1) e) as [_ Hdiff].
    + unfold in_bounds; simpl; lia.
    + unfold in_bounds; simpl; lia.
    + unfold adjacent; simpl; lia.
    + exact He.
    + exact (Hdiff e' He').
Defined.

(** ** Arguments the array cannot hold *)

Lemma norm_index_None n i :
  ¬ (- Z.of_nat n ≤ i < Z.of_nat n) → norm_index n i = None.
Proof.
  intros H. unfold norm_index.
  rewrite !bool_decide_eq_false_2; [done|lia..].
Qed.

(** Writing an entry either raises [IndexError] or keeps the shape. *)
Lemma setitem_outcome R C f p v :
  has_shape R C f →
  setitem f p v = Raise IndexError ∨
  ∃ f', setitem f p v = Ok f' ∧ has_shape R C f'.
Proof.
  intros Hs. unfold setitem.
  destruct (norm_index (length f) p.1) as [i|]; [|by left].
  destruct (f !! i) as [row|] eqn:Hrow; [|by left].
  destruct (norm_index (length row) p.2) as [j|]; [|by left].
  right. eexists. split; [done|]. destruct Hs as [Hlen Hrows].
  split; [by rewrite length_insert|].
  apply Forall_insert; [done|]. rewrite length_insert.
  by eapply (Forall_lookup_1 _ _ _ _ Hrows).
Qed.

Lemma setitem_invalid R C f p v :
  0 ≤ R → 0 ≤ C → has_shape R C f → ¬ valid_index R C p →
  setitem f p v = Raise IndexError.
Proof.
  intros HR HC Hs Hp. unfold setitem.
  destruct (norm_index (length f) p.1) as [i|] eqn:Hi; [|done].
  destruct (f !! i) as [row|] eqn:Hrow; [|done].
  rewrite norm_index_None; [done|].
  rewrite (has_shape_row _ _ _ _ _ Hs Hrow), Z2Nat.id by done.
  intros Hc. apply Hp. split; [|done].
  destruct Hs as [Hlen _]. rewrite Hlen in Hi. unfold norm_index in Hi.
  repeat case_bool_decide; simplify_eq; lia.
Qed.

Lemma getitem_invalid R C f p :
  0 ≤ R → 0 ≤ C → has_shape R C f → ¬ valid_index R C p →
  getitem f p = Raise IndexError.
Proof.
  intros HR HC Hs Hp. unfold getitem.
  destruct (norm_index (length f) p.1) as [i|] eqn:Hi; [|done].
  destruct (f !! i) as [row|] eqn:Hrow; [|done].
  rewrite norm_index_None; [done|].
  rewrite (has_shape_row _ _ _ _ _ Hs Hrow), Z2Nat.id by done.
  intros Hc. apply Hp. split; [|done].
  destruct Hs as [Hlen _]. rewrite Hlen in Hi. unfold norm_index in Hi.
  repeat case_bool_decide; simplify_eq; lia.
Qed.

(** The marking loop of lines 55-56 raises [IndexError] or keeps the
    shape; it raises as soon as one obstacle is out of range. *)
Lemma mark_obstacles_outcome R C obs : ∀ f,
  0 ≤ R → 0 ≤ C → has_shape R C f →
  foldM (λ f obstacle, setitem f obstacle NaN) f obs = Raise IndexError ∨
  (Forall (valid_index R C) obs ∧
   ∃ f', foldM (λ f obstacle, setitem f obstacle NaN) f obs = Ok f' ∧
         has_shape R C f').
Proof.
  induction obs as [|o obs IH]; intros f HR HC Hs; simpl.
  - right. split; [constructor|]. by exists f.
  - destruct (decide (valid_index R C o)) as [Ho|Ho].
    + destruct (setitem_outcome R C f o NaN Hs) as [->|(f1 & -> & Hs1)];
        [by left|]. simpl.
      destruct (IH f1 HR HC Hs1) as [->|(Hall & f' & -> & Hs')]; [by left|].
      right. split; [by constructor|]. by exists f'.
    + left. by rewrite (setitem_invalid R C f o NaN).
Qed.

(** X6. When the dimensions are not negative and some obstacle, or the
    destination, is an index the array does not have (below [-n] or from
    [n] on along an axis of length [n]), the function raises [IndexError],
    whatever the start and the fuel: nothing is expanded. *)
Theorem index_out_of_range_is_raised R C obstacles start dest fuel :
  0 ≤ R → 0 ≤ C →
  (∃ o, o ∈ obstacles ∧ ¬ valid_index R C o) ∨ ¬ valid_index R C dest →
  grassfire_algorithm fuel obstacles start dest R C = Raise IndexError.
Proof.
  intros HR HC Hbad.
  unfold grassfire_algorithm, compute_field, init_field, np_full.
  rewrite bool_decide_eq_false_2 by lia. simpl.
  match goal with
  | |- context [foldM ?step ?f0 obstacles] =>
      assert (Hs0 : has_shape R C f0)
  end.
  { split; [by rewrite length_replicate|].
    apply Forall_replicate. by rewrite length_replicate. }
  destruct (mark_obstacles_outcome R C obstacles _ HR HC Hs0)
    as [->|(Hall & f1 & -> & Hs1)]; [done|]. simpl.
  destruct Hbad as [(o & Ho & Hinv)|Hd].
  - rewrite Forall_forall in Hall. by destruct (Hinv (Hall o Ho)).
  - by rewrite (setitem_invalid R C f1 dest (Fin 0)).
Qed.

Lemma index_out_of_range_is_raised_witness :
  grassfire_algorithm 65 [(1, 1); (8, 0)] (0, 3) (7, 6) 8 8 = Raise IndexError ∧
  grassfire_algorithm 65 [(1, 1)] (0, 3) (7, -9) 8 8 = Raise IndexError.
Proof.
  split.
  - apply (index_out_of_range_is_raised 8 8); [lia|lia|].
    left. exists (8, 0). split.
    + apply elem_of_cons. right. apply elem_of_cons. by left.
    + unfold valid_index. simpl. lia.
  - apply (index_out_of_range_is_raised 8 8); [lia|lia|].
    right. unfold valid_index. simpl. lia.
Defined.

(** X7. With obstacles and destination inside the grid, a start that is
    an index the array does not have makes the function raise
    [IndexError] at line 70, after the expansion has run (any fuel above
    [R * C]). *)
Theorem start_out_of_range_is_raised R C obstacles start dest fuel :
  in_bounds R C dest → Forall (in_bounds R C) obstacles →
  ¬ valid_index R C start → (Z.to_nat (R * C) < fuel)%nat →
  grassfire_algorithm fuel obstacles start dest R C = Raise IndexError.
Proof.
  intros Hd Hobs Hs Hfuel.
  destruct (field_of_run R C obstacles dest Hd Hobs) as (f & Hrun & [d Hinv] & _).
  unfold grassfire_algorithm.
  rewrite (compute_field_more_fuel (S (Z.to_nat (R * C))) fuel _ _ _ _ f)
    by (done || lia).
  simpl. unfold reconstruct.
  rewrite (getitem_invalid R C f start); [done| | |by apply (inv_shape Hinv)|done];
    destruct Hd; lia.
Qed.

Lemma start_out_of_range_is_raised_witness :
  grassfire_algorithm 65 [(1, 1)] (0, 8) (7, 6) 8 8 = Raise IndexError.
Proof.
  apply (start_out_of_range_is_raised 8 8).
  - unfold in_bounds; simpl; lia.
  - repeat constructor; simpl; lia.
  - unfold valid_index. simpl. lia.
  - simpl. lia.
Defined.

(** ** The cells of a returned path *)

(** The walk is deterministic: from one cell there is one descent. *)
Lemma descent_unique f R C dest cur cells1 cells2 :
  descent f R C dest cur cells1 → descent f R C dest cur cells2 →
  cells1 = cells2.
Proof.
  intros H1. revert cells2.
  induction H1 as [|cur next cells Hne Hstep _ IH]; intros cells2 H2.
  - by inversion H2.
  - inversion H2 as [|cur' next' cells' _ Hstep' Hdesc']; subst; [done|].
    assert (next' = next) as -> by congruence.
    f_equal. by apply IH.
Qed.

(** From any cell of a descent, the rest of the list is the descent from
    that cell. *)
Lemma descent_from_member f R C dest cur cells x :
  descent f R C dest cur cells → x ∈ cells →
  ∃ before rest, cells = before ++ rest ∧ descent f R C dest x rest.
Proof.
  induction 1 as [|cur next cells Hne Hstep Hdesc IH].
  - intros ->%list_elem_of_singleton. exists [], [dest].
    split; [done|constructor].
  - intros [->|Hin]%elem_of_cons.
    + exists [], (cur :: cells). split; [done|by econstructor].
    + destruct (IH Hin) as (before & rest & -> & Hrest).
      by exists (cur :: before), rest.
Qed.

Lemma descent_NoDup f R C dest cur cells :
  descent f R C dest cur cells → NoDup cells.
Proof.
  induction 1 as [|cur next cells Hne Hstep Hdesc IH].
  - apply NoDup_singleton.
  - apply NoDup_cons. split; [|done]. intros Hin.
    destruct (descent_from_member _ _ _ _ _ _ _ Hdesc Hin)
      as (before & rest & -> & Hrest).
    assert (Hfull : descent f R C dest cur (cur :: before ++ rest))
      by (by econstructor).
    pose proof (descent_unique _ _ _ _ _ _ _ Hrest Hfull) as Heq.
    apply (f_equal length) in Heq. simpl in Heq. rewrite length_app in Heq. lia.
Qed.

Lemma descent_inside f R C dest cur cells :
  descent f R C dest cur cells → in_bounds R C cur →
  Forall (in_bounds R C) cells.
Proof.
  induction 1 as [|cur next cells Hne Hstep Hdesc IH]; intros Hcur.
  - by apply Forall_singleton.
  - apply Forall_cons. split; [done|]. apply IH.
    by apply walk_step_Some in Hstep as (_ & Hnext & _).
Qed.

(** What lines 69-83 return is a list of pairwise distinct cells, all
    inside the grid when the start is. *)
Lemma reconstruct_distinct_inside fuel f start dest R C path :
  reconstruct fuel f start dest R C = Ok path →
  NoDup path ∧ (in_bounds R C start → Forall (in_bounds R C) path).
Proof.
  intros Hp.
  destruct path as [|c path]; [split; [constructor|by constructor]|].
  destruct (reconstruct_descent _ _ _ _ _ _ _ Hp) as (cells & Hdesc & ->);
    [done|].
  split.
  - rewrite reverse_Permutation. by eapply descent_NoDup.
  - intros Hs. apply Forall_reverse. by eapply descent_inside.
Qed.

(** X8. A path the function returns never contains the same cell twice,
    and when the start lies inside the grid so does every cell of the
    path. *)
Theorem returned_path_has_distinct_cells fuel obstacles start dest R C path f :
  grassfire_algorithm fuel obstacles start dest R C = Ok (path, f) →
  NoDup path ∧ (in_bounds R C start → Forall (in_bounds R C) path).
Proof.
  intros [_ Hp]%grassfire_algorithm_Ok.
  by eapply reconstruct_distinct_inside.
Qed.

Lemma returned_path_has_distinct_cells_witness :
  ∃ path f,
    grassfire_algorithm 65 [(1, 3); (2, 3)] (0, 3) (7, 6) 8 8 = Ok (path, f) ∧
    NoDup path.
Proof.
  eexists _, _. split; [vm_compute; reflexivity|].
  eapply (returned_path_has_distinct_cells 65 [(1, 3); (2, 3)] (0, 3) (7, 6) 8 8).
  vm_compute; reflexivity.
Defined.

(** ** The neighbour the walk chooses *)

(** X9. When none of the neighbours of the current cell inside the grid
    holds [NaN], the neighbour [min] picks holds an entry that no other
    neighbour undercuts; among neighbours holding the same entry it is the
    one in the highest row and, within that row, the highest column. *)
Theorem chosen_neighbour_is_least f R C cur next :
  (∀ q, q ∈ candidates R C cur → ∃ v, getitem f q = Ok v ∧ v ≠ NaN) →
  py_min f (candidates R C cur) = Ok next →
  adjacent cur next ∧ in_bounds R C next ∧
  ∃ vn, getitem f next = Ok vn ∧
    ∀ q vq, adjacent cur q → in_bounds R C q → q ≠ next →
            getitem f q = Ok vq →
            flt vn vq = true ∨
            (vq = vn ∧ (q.1 < next.1 ∨ (q.1 = next.1 ∧ q.2 < next.2))).
Proof.
  intros Hcands Hmin.
  destruct (py_min_least _ _ _ Hcands Hmin) as (Hin & kx & Hkx & Hleast).
  apply candidates_spec in Hin as [Hadj Hnext].
  apply sort_key_Ok in Hkx as (vn & Hvn & ->).
  split_and!; [done..|]. exists vn. split; [done|].
  intros q vq Hadjq Hq Hne Hvq.
  destruct (Hleast q (vq, - q.1, - q.2)) as [->|Hlt].
  - by apply candidates_complete.
  - apply sort_key_Ok. eauto.
  - done.
  - destruct (Hcands next) as (vn' & Hvn' & Hnn);
      [by apply candidates_complete|].
    destruct (Hcands q) as (vq' & Hvq' & Hnq);
      [by apply candidates_complete|].
    assert (vn' = vn) as -> by congruence.
    assert (vq' = vq) as -> by congruence.
    simpl in Hlt. destruct (feq vn vq) eqn:Heq; [|by left].
    right. split.
    + destruct vn as [x| |], vq as [y| |]; simpl in Heq; try done.
      apply Z.eqb_eq in Heq. by subst.
    + repeat case_bool_decide; try done; lia.
Qed.

Lemma chosen_neighbour_is_least_witness :
  ∃ f, compute_field 65 [] (7, 6) 8 8 = Ok f ∧
       py_min f (candidates 8 8 (0, 3)) = Ok (1, 3) ∧
       adjacent (0, 3) (1, 3).
Proof.
  assert (H : ∃ f, compute_field 65 [] (7, 6) 8 8 = Ok f ∧
                   py_min f (candidates 8 8 (0, 3)) = Ok (1, 3) ∧
                   Forall (λ q, ∃ v, getitem f q = Ok v ∧ v ≠ NaN)
                          (candidates 8 8 (0, 3))).
  { eexists. split; [vm_compute; reflexivity|].
    split; [vm_compute; reflexivity|].
    replace (candidates 8 8 (0, 3)) with [(1, 3); (0, 2); (0, 4)]
      by (vm_compute; reflexivity).
    repeat (apply Forall_cons; split); [..|apply Forall_nil];
      eexists; (split; [vm_compute; reflexivity|discriminate]). }
  destruct H as (f & Hf & Hmin & Hc).
  exists f. split; [exact Hf|]. split; [exact Hmin|].
  apply (chosen_neighbour_is_least f 8 8 (0, 3) (1, 3)); [|exact Hmin].
  intros q Hq. rewrite Forall_forall in Hc. exact (Hc q Hq).
Defined.

(** * The random placement *)

Lemma randint_Ok a b rng x rng' :
  randint a b rng = Ok (x, rng') →
  a ≤ x ≤ b ∧ ∃ raw, rng = raw :: rng'.
Proof.
  unfold randint. case_bool_decide as Hab; [done|].
  destruct rng as [|raw rng0]; [done|]. intros [= <- <-].
  pose proof (Z.mod_pos_bound raw (b - a + 1)). split; [lia|by exists raw].
Qed.

Lemma randint_empty_range a b rng :
  b < a → randint a b rng = Raise ValueError.
Proof. intros H. unfold randint. by rewrite bool_decide_eq_true_2. Qed.

Lemma randint_outcome a b rng :
  a ≤ b → randint a b rng = OutOfFuel ∨ ∃ x rng', randint a b rng = Ok (x, rng').
Proof.
  intros H. unfold randint. rewrite bool_decide_eq_false_2 by lia.
  destruct rng; [by left|right; eauto].
Qed.

(** A set of cells of the grid has at most [R * C] elements. *)
Lemma cells_of_grid_bound (R C : Z) (obs : gset cell) :
  (∀ o, o ∈ obs → in_bounds R C o) →
  (size obs ≤ Z.to_nat R * Z.to_nat C)%nat.
Proof.
  intros Hin. unfold size, set_size. simpl.
  apply distinct_cells_bound; [apply NoDup_elements|].
  apply Forall_forall. intros o Ho. by apply Hin, elem_of_elements.
Qed.

Lemma size_add_cell (o : cell) (obs : gset cell) :
  (size ({[o]} ∪ obs) ≤ S (size obs))%nat.
Proof.
  destruct (decide (o ∈ obs)) as [Hin|Hout].
  - replace ({[o]} ∪ obs) with obs by set_solver. lia.
  - rewrite size_union by set_solver. rewrite size_singleton. lia.
Qed.

Lemma obstacle_loop_post (R C N : Z) fuel : ∀ obs rng res,
  (∀ o, o ∈ obs → in_bounds R C o) →
  Z.of_nat (size obs) ≤ Z.max 0 N →
  obstacle_loop fuel R C N obs rng = Ok res →
  (∀ o, o ∈ res.1 → in_bounds R C o) ∧
  Z.of_nat (size res.1) = Z.max 0 N.
Proof.
  induction fuel as [|fuel IH]; intros obs rng res Hin Hsize; simpl; [done|].
  case_bool_decide as Hlt.
  - intros Hrun.
    apply bind_Ok in Hrun as ([r rng1] & Hr & Hrun).
    apply bind_Ok in Hrun as ([c rng2] & Hc & Hrun). simpl in *.
    apply randint_Ok in Hr as [Hr _]. apply randint_Ok in Hc as [Hc _].
    apply (IH _ _ _) in Hrun; [done| |].
    + intros o [->%elem_of_singleton|Ho]%elem_of_union; [|by apply Hin].
      unfold in_bounds. simpl. lia.
    + pose proof (size_add_cell (r, c) obs). lia.
  - intros [= <-]. simpl. split; [done|lia].
Qed.

(** X10. Whenever [create_obstacle_set] returns, the set it returns
    consists of cells of the grid and has exactly the number of elements
    line 34 asked for (none when that number is negative). *)
Theorem create_obstacle_set_post round_percent fuel R C percentage rng obs rng' :
  create_obstacle_set round_percent fuel R C percentage rng = Ok (obs, rng') →
  (∀ o, o ∈ obs → in_bounds R C o) ∧
  Z.of_nat (size obs) = Z.max 0 (round_percent percentage (R * C)).
Proof.
  unfold create_obstacle_set. intros Hrun.
  apply obstacle_loop_post in Hrun; [done|set_solver|].
  rewrite size_empty. lia.
Qed.

Lemma create_obstacle_set_post_witness :
  ∃ obs rng',
    create_obstacle_set (λ p n, p * n / 100) 5 8 8 5 [3; 12; 3; 4; 9; 9; 1; 0] = Ok (obs, rng') ∧
    (∀ o, o ∈ obs → in_bounds 8 8 o) ∧ Z.of_nat (size obs) = 3.
Proof.
  eexists _, _. split; [vm_compute; reflexivity|].
  eapply (create_obstacle_set_post (λ p n, p * n / 100) 5 8 8 5
            [3; 12; 3; 4; 9; 9; 1; 0]).
  vm_compute; reflexivity.
Defined.

Lemma obstacle_loop_overfull (R C N : Z) fuel : ∀ obs rng,
  0 < R → 0 < C → R * C < N →
  (∀ o, o ∈ obs → in_bounds R C o) →
  obstacle_loop fuel R C N obs rng = OutOfFuel.
Proof.
  induction fuel as [|fuel IH]; intros obs rng HR HC HN Hin; simpl; [done|].
  pose proof (cells_of_grid_bound R C obs Hin) as Hsize.
  rewrite bool_decide_eq_true_2 by nia.
  destruct (randint_outcome 0 (R - 1) rng) as [->|(r & rng1 & Hr)];
    [lia|done|].
  rewrite Hr. simpl.
  destruct (randint_outcome 0 (C - 1) rng1) as [->|(c & rng2 & Hc)];
    [lia|done|].
  rewrite Hc. simpl. apply IH; [done..|].
  apply randint_Ok in Hr as [Hr _]. apply randint_Ok in Hc as [Hc _].
  intros o [->%elem_of_singleton|Ho]%elem_of_union; [|by apply Hin].
  unfold in_bounds. simpl. lia.
Qed.

(** X11. When line 34 asks for more obstacles than the grid has cells
    (a percentage above 100), the loop of [create_obstacle_set] never
    ends: whatever the generator delivers and however much fuel there
    is, the run is still going. *)
Theorem create_obstacle_set_overfull round_percent fuel R C percentage rng :
  0 < R → 0 < C → R * C < round_percent percentage (R * C) →
  create_obstacle_set round_percent fuel R C percentage rng = OutOfFuel.
Proof.
  intros HR HC HN. unfold create_obstacle_set.
  apply obstacle_loop_overfull; [done..|set_solver].
Qed.

Lemma create_obstacle_set_overfull_witness :
  create_obstacle_set (λ p n, p * n / 100) 50 2 2 150 [0; 0; 0; 1; 1; 0; 1; 1; 0; 0]
  = OutOfFuel.
Proof.
  apply (create_obstacle_set_overfull (λ p n, p * n / 100) 50 2 2 150);
    [lia|lia|vm_compute; reflexivity].
Defined.

(** X12. Whenever [select_destination_position] returns, the row of the
    destination lies strictly below the middle row [num_rows // 2] and
    inside the grid, and its column lies between the threshold of line 48
    and the last column. *)
Theorem destination_placement round_two_thirds R C rng d rng' :
  select_destination_position round_two_thirds R C rng = Ok (d, rng') →
  R `div` 2 < d.1 < R ∧ round_two_thirds C ≤ d.2 < C.
Proof.
  unfold select_destination_position. intros Hrun.
  apply bind_Ok in Hrun as ([r rng1] & Hr & Hrun).
  apply bind_Ok in Hrun as ([c rng2] & Hc & [= <- <-]). simpl in *.
  apply randint_Ok in Hr as [Hr _]. apply randint_Ok in Hc as [Hc _]. lia.
Qed.

Lemma destination_placement_witness :
  ∃ d rng',
    select_destination_position (λ n, (4 * n + 3) `div` 6) 8 8 [2; 1; 5]
    = Ok (d, rng') ∧
    8 `div` 2 < d.1 < 8.
Proof.
  eexists _, _. split; [vm_compute; reflexivity|].
  eapply (destination_placement (λ n, (4 * n + 3) `div` 6) 8 8 [2; 1; 5]).
  vm_compute; reflexivity.
Defined.

(** X13. On a grid with fewer than three rows there is no row strictly
    below the middle one: [select_destination_position] raises
    [ValueError], whatever the generator delivers. *)
Theorem destination_needs_three_rows round_two_thirds R C rng :
  R < 3 →
  select_destination_position round_two_thirds R C rng = Raise ValueError.
Proof.
  intros HR. unfold select_destination_position.
  rewrite randint_empty_range; [done|].
  pose proof (Z.div_mod R 2). pose proof (Z.mod_pos_bound R 2). lia.
Qed.

Lemma destination_needs_three_rows_witness :
  select_destination_position (λ n, (4 * n + 3) `div` 6) 2 8 [2; 1; 5]
  = Raise ValueError.
Proof. apply destination_needs_three_rows. lia. Defined.

(** * The size prompt *)

Lemma prompt_loop_unfold inputs rows cols out :
  prompt_loop inputs rows cols out =
  if bool_decide (rows < MIN_ROWS ∨ cols < MIN_COLUMNS) then
    match inputs with
    | [] => EOFError (out ++ [AskRows])
    | None :: rest =>
        prompt_loop rest rows cols
          (report_size rows cols (out ++ [AskRows; IntegersOnly]))
    | Some r :: [] => EOFError (out ++ [AskRows; AskColumns])
    | Some r :: None :: rest =>
        prompt_loop rest r cols
          (report_size r cols (out ++ [AskRows; AskColumns; IntegersOnly]))
    | Some r :: Some c :: rest =>
        prompt_loop rest r c
          (report_size r c (out ++ [AskRows; AskColumns]))
    end
  else Answered rows cols out.
Proof. by destruct inputs. Qed.

Lemma prompt_loop_post (n : nat) : ∀ inputs rows cols out r c out',
  (length inputs ≤ n)%nat →
  prompt_loop inputs rows cols out = Answered r c out' →
  MIN_ROWS ≤ r ∧ MIN_COLUMNS ≤ c.
Proof.
  induction n as [|n IH]; intros inputs rows cols out r c out' Hlen;
    rewrite prompt_loop_unfold;
    (case_bool_decide as Hsmall; [|intros [= <- <- _]; lia]).
  - destruct inputs; [done|simpl in Hlen; lia].
  - destruct inputs as [|[a|] l]; [done| |].
    + destruct l as [|[b|] rest]; [done| |]; apply IH; simpl in Hlen; lia.
    + apply IH. simpl in Hlen. lia.
Qed.

(** X14. Whatever is typed, when [prompt_grid_size] returns, both numbers
    it returns are at least the minimum of 8. *)
Theorem prompt_grid_size_post inputs r c out :
  prompt_grid_size inputs = Answered r c out →
  MIN_ROWS ≤ r ∧ MIN_COLUMNS ≤ c.
Proof. apply (prompt_loop_post (length inputs)). done. Qed.

Lemma prompt_grid_size_post_witness :
  ∃ out, prompt_grid_size [Some 3; Some 9; None; Some 12; Some 10]
         = Answered 12 10 out ∧ MIN_ROWS ≤ 12 ∧ MIN_COLUMNS ≤ 10.
Proof.
  eexists. split; [vm_compute; reflexivity|].
  eapply (prompt_grid_size_post [Some 3; Some 9; None; Some 12; Some 10]).
  vm_compute; reflexivity.
Defined.

(** X15. A column count accepted in an earlier round stays in force: after
    a round with too few rows but enough columns, a round in which the
    rows are large enough and the columns answer is not an integer makes
    the function return the new rows with the old columns, right after
    the "integers only" message and without asking again. *)
Theorem prompt_keeps_earlier_columns r1 c1 r2 rest :
  r1 < MIN_ROWS → MIN_COLUMNS ≤ c1 → MIN_ROWS ≤ r2 →
  prompt_grid_size (Some r1 :: Some c1 :: Some r2 :: None :: rest)
  = Answered r2 c1
      [AskRows; AskColumns; TooSmall; AskRows; AskColumns; IntegersOnly].
Proof.
  intros H1 H2 H3. unfold prompt_grid_size.
  rewrite prompt_loop_unfold.
  rewrite bool_decide_eq_true_2 by (unfold MIN_ROWS; lia). cbv iota.
  rewrite prompt_loop_unfold.
  rewrite bool_decide_eq_true_2 by lia. cbv iota.
  rewrite prompt_loop_unfold.
  rewrite bool_decide_eq_false_2 by lia.
  unfold report_size.
  rewrite (bool_decide_eq_true_2 (r1 < MIN_ROWS ∨ c1 < MIN_COLUMNS)) by lia.
  by rewrite (bool_decide_eq_false_2 (r2 < MIN_ROWS ∨ c1 < MIN_COLUMNS)) by lia.
Qed.

Lemma prompt_keeps_earlier_columns_witness :
  prompt_grid_size [Some 3; Some 10; Some 9; None; Some 1]
  = Answered 9 10
      [AskRows; AskColumns; TooSmall; AskRows; AskColumns; IntegersOnly].
Proof.
  apply prompt_keeps_earlier_columns; unfold MIN_ROWS, MIN_COLUMNS; lia.
Defined.

(** * [main]: what reaches the renderer *)

Lemma select_starting_position_Ok C rng s rng' :
  select_starting_position C rng = Ok (s, rng') → s.1 = 0 ∧ 0 ≤ s.2 < C.
Proof.
  unfold select_starting_position. intros Hrun.
  apply bind_Ok in Hrun as ([c rng1] & Hc & [= <- <-]). simpl in *.
  apply randint_Ok in Hc as [Hc _]. lia.
Qed.

(** X16. Whenever [main] gets as far as calling [visualize_grid], and
    the column threshold of line 48 is not negative, what it hands over
    is well formed: the grid is at least 8 x 8; the obstacles are cells of
    the grid, as many as line 34 asked for; the start lies in row 0 and
    the destination strictly below the middle row, both inside the grid;
    the path consists of pairwise distinct cells of the grid and, when it
    is not empty, begins with the destination and ends with the start. *)
Theorem main_hands_over_a_well_formed_scene
    round_percent round_two_thirds inputs fuel rng out sc :
  main round_percent round_two_thirds inputs fuel rng = MainRan out (Ok sc) →
  0 ≤ round_two_thirds (scene_cols sc) →
  MIN_ROWS ≤ scene_rows sc ∧ MIN_COLUMNS ≤ scene_cols sc ∧
  (∀ o, o ∈ scene_obstacles sc → in_bounds (scene_rows sc) (scene_cols sc) o) ∧
  Z.of_nat (size (scene_obstacles sc))
  = Z.max 0 (round_percent 15 (scene_rows sc * scene_cols sc)) ∧
  (scene_start sc).1 = 0 ∧
  in_bounds (scene_rows sc) (scene_cols sc) (scene_start sc) ∧
  in_bounds (scene_rows sc) (scene_cols sc) (scene_destination sc) ∧
  scene_rows sc `div` 2 < (scene_destination sc).1 ∧
  round_two_thirds (scene_cols sc) ≤ (scene_destination sc).2 ∧
  NoDup (scene_path sc) ∧
  Forall (in_bounds (scene_rows sc) (scene_cols sc)) (scene_path sc) ∧
  (scene_path sc ≠ [] →
   head (scene_path sc) = Some (scene_destination sc) ∧
   last (scene_path sc) = Some (scene_start sc)).
Proof.
  unfold main.
  destruct (prompt_grid_size inputs) as [R C out0|] eqn:Hprompt; [|done].
  intros [= <- Hrun] Hthr.
  apply bind_Ok in Hrun as ([obs rng1] & Hobs & Hrun).
  apply bind_Ok in Hrun as ([s rng2] & Hs & Hrun).
  apply bind_Ok in Hrun as ([d rng3] & Hd & Hrun).
  apply bind_Ok in Hrun as ([path f] & Hg & [= <-]). simpl in *.
  apply (prompt_loop_post (length inputs)) in Hprompt as [HR HC]; [|done].
  unfold create_obstacle_set in Hobs.
  apply obstacle_loop_post in Hobs as [Hin Hsize];
    [|set_solver|rewrite size_empty; lia]. simpl in *.
  apply select_starting_position_Ok in Hs as [Hs1 Hs2].
  unfold select_destination_position in Hd.
  apply bind_Ok in Hd as ([r rng4] & Hr & Hd).
  apply bind_Ok in Hd as ([c rng5] & Hc & [= <- <-]). simpl in *.
  apply randint_Ok in Hr as [Hr _]. apply randint_Ok in Hc as [Hc _].
  apply grassfire_algorithm_Ok in Hg as [_ Hp].
  unfold MIN_ROWS, MIN_COLUMNS in *.
  assert (Hstart : in_bounds R C s) by (unfold in_bounds; lia).
  assert (Hhalf : 0 ≤ R `div` 2) by (apply Z.div_pos; lia).
  assert (Hdest : in_bounds R C (r, c)) by (unfold in_bounds; simpl; lia).
  destruct (reconstruct_distinct_inside _ _ _ _ _ _ _ Hp) as [Hnd Hinside].
  split_and!; try done; try lia; [by apply Hinside|].
  intros Hne.
  destruct (reconstruct_descent _ _ _ _ _ _ _ Hp Hne) as (cells & Hdesc & ->).
  rewrite head_reverse, last_reverse.
  split; [by eapply descent_last|by eapply descent_head].
Qed.

Lemma main_hands_over_a_well_formed_scene_witness :
  ∃ out sc,
    main (λ _ _, 2) (λ n, (4 * n + 3) `div` 6) [Some 8; Some 8] 65
      [0; 0; 1; 0; 3; 2; 1] = MainRan out (Ok sc) ∧
    0 ≤ (4 * scene_cols sc + 3) `div` 6 ∧
    in_bounds (scene_rows sc) (scene_cols sc) (scene_destination sc) ∧
    NoDup (scene_path sc).
Proof.
  eexists _, _. split; [vm_compute; reflexivity|].
  split; [vm_compute; discriminate|].
  pose proof (main_hands_over_a_well_formed_scene
                (λ _ _, 2) (λ n, (4 * n + 3) `div` 6) [Some 8; Some 8] 65
                [0; 0; 1; 0; 3; 2; 1] _ _
                ltac:(vm_compute; reflexivity) ltac:(vm_compute; discriminate))
    as H.
  split; [exact (proj1 (proj2 (proj2 (proj2 (proj2 (proj2 (proj2 H)))))))|].
  exact (proj1 (proj2 (proj2 (proj2 (proj2 (proj2 (proj2 (proj2 (proj2
           (proj2 H)))))))))).
Defined.
